(** * Commerce framework hooks: customer read hook and wishlist add-item hook

  A shallow embedding of [account/use-customer.tsx] and
  [wishlist/use-add-item.tsx]: the two default fetchers, the two
  [extendHook] constructors, and the [addItem] operation. *)

From stdpp Require Import gmap strings list fin_maps.
From Stdlib Require Import ZArith.

Open Scope string_scope.
Open Scope list_scope.
Set Warnings "-register-all".

(** ** JavaScript values *)

(** The values that flow through the hooks: request specs, inputs and
    response bodies are plain JSON-like objects. *)
Inductive JsVal : Type :=
  | JUndefined
  | JNull
  | JBool (b : bool)
  | JNum (n : Z)
  | JStr (s : string)
  | JObj (fields : gmap string JsVal).

(** An object literal's own properties. *)
Abbreviation JsObj := (gmap string JsVal).

(** [{ ...a, ...b }]: the properties of [a], then those of [b]; a property
    of [b] replaces the one of [a] with the same name. *)
Definition spread (a b : JsObj) : JsObj := b ∪ a.

(** [...o] for a value that may be [undefined]: nothing is copied then. *)
Definition spread_opt (a : JsObj) (b : option JsObj) : JsObj :=
  match b with
  | Some o => spread a o
  | None => a
  end.

(** [!v] is [false] exactly for the truthy values. *)
Definition truthy (v : JsVal) : bool :=
  match v with
  | JUndefined | JNull => false
  | JBool b => b
  | JNum n => negb (n =? 0)%Z
  | JStr s => negb (String.eqb s "")
  | JObj _ => true
  end.

(** [v?.k]: [undefined] on [null] and [undefined], the property otherwise
    (primitives have no own data property of interest). *)
Definition optional_chain (v : JsVal) (k : string) : JsVal :=
  match v with
  | JObj o => default JUndefined (o !! k)
  | _ => JUndefined
  end.

(** [v ?? d] *)
Definition nullish (v d : JsVal) : JsVal :=
  match v with
  | JUndefined | JNull => d
  | _ => v
  end.

(** ** Errors, events and asynchronous computations *)

(** Modelled from the spec: the [CommerceError] class of [src/utils/errors],
    whose declaration is not part of the sources at hand; the spec gives it
    the fields [message], [code] and [status], the last two optional. *)
Record CommerceError : Type := mkCommerceError {
  message : string;
  code : option string;
  status : option Z
}.

(** What a promise can reject with. *)
Inductive Thrown : Type :=
  | ThrowCommerceError (e : CommerceError)
  | ThrowTypeError
  | ThrowValue (v : JsVal).

(** What an asynchronous computation can do to the outside world. *)
Inductive Event : Type :=
  | Transport (req : JsObj)
  | Revalidate
  | Suspend
  | Custom (tag : string).

(** A promise-returning computation, run to its settlement: it extends the
    log of events and either rejects or resolves. *)
Definition Async (A : Type) : Type := list Event → list Event * (Thrown + A).

Definition resolve {A} (a : A) : Async A := λ n, (n, inr a).
Definition throw {A} (e : Thrown) : Async A := λ n, (n, inl e).
Definition emit (ev : Event) : Async unit := λ n, (n ++ [ev], inr tt).

Definition bind {A B} (k : A → Async B) (m : Async A) : Async B :=
  λ n, match m n with
       | (n1, inr a) => k a n1
       | (n1, inl e) => (n1, inl e)
       end.

#[global] Instance Async_ret : MRet Async := @resolve.
#[global] Instance Async_bind : MBind Async := @bind.

(** [await m]: [m] is started, the caller is suspended until it settles.
    An error of [m] stands for the rejection of its promise; a call that
    throws before it returns a promise ends the caller without the
    suspension, which the log does not tell apart: the facts below state
    the suspension after an error only for callees that return a promise,
    as [transport] does. *)
Definition await {A} (m : Async A) : Async A :=
  λ n, let '(n1, r) := m n in (n1 ++ [Suspend], r).

(** The fetch function handed to a fetcher. *)
Abbreviation Fetch := (JsObj → Async JsVal).

(** [HookFetcher]: [(options, input, fetch) => Promise]. *)
Abbreviation HookFetcher := (JsObj → JsVal → Fetch → Async JsVal).

(** A transport that records each request it receives and answers as
    [server] says. *)
Definition transport (server : JsObj → Thrown + JsVal) : Fetch :=
  λ req n, (n ++ [Transport req], server req).

(** [const { k } = v]: a [TypeError] on [null] and [undefined] ([None]),
    the property or [undefined] otherwise. *)
Definition destructure (v : JsVal) (k : string) : option JsVal :=
  match v with
  | JUndefined | JNull => None
  | JObj o => Some (default JUndefined (o !! k))
  | _ => Some JUndefined
  end.

(** ** What a render sees of its surroundings *)

(** The results of the hooks a hook body calls while rendering:
    [useCommerce().fetcherRef.current], [useCustomer().data] and
    [useWishlist(opts).revalidate]. *)
Record RenderCtx : Type := mkRenderCtx {
  ctx_fetch : Fetch;
  ctx_customer : JsVal;
  ctx_wishlist_revalidate : option JsObj → Async JsVal
}.

(** What a read hook hands to the cache: the key parts, the function the
    cache runs to fetch, and the cache-policy options. *)
Record Subscription : Type := mkSubscription {
  sub_key : JsObj * list (string * JsVal);
  sub_fetch : Async JsVal;
  sub_options : JsObj
}.

(** Modelled from the spec: [useCommerceCustomer] of [src/use-customer],
    which is not part of the sources at hand. The custom fetcher receives
    the request spec, the input as an object and the fetch function set by
    the provider; the options are the cache-policy options of the
    subscription. *)
Definition useCommerceCustomer (ctx : RenderCtx) (options : JsObj)
    (input : list (string * JsVal)) (fetcherFn : HookFetcher)
    (swrOptions : JsObj) : Subscription :=
  {| sub_key := (options, input);
     sub_fetch := fetcherFn options (JObj (list_to_map input)) (ctx_fetch ctx);
     sub_options := swrOptions |}.

(** Modelled from the spec: [useWishlistAddItem] of
    [src/wishlist/use-add-item], which is not part of the sources at hand.
    It returns the function that calls the custom fetcher with the request
    spec, the input and the fetch function set by the provider. *)
Definition useWishlistAddItem (ctx : RenderCtx) (options : JsObj)
    (fetcherFn : HookFetcher) : JsVal → Async JsVal :=
  λ input, fetcherFn options input (ctx_fetch ctx).

(** ** Hook function objects *)

(** The closure a hook function is: its code and the variables of
    [extendHook] it captured. *)
Inductive HookClosure : Type :=
  | UseCustomer (customFetcher : HookFetcher) (swrOptions : option JsObj)
  | UseAddItem (customFetcher : HookFetcher).

(** The module-level functions a hook's [extend] property can refer to. *)
Inductive ModuleFn : Type :=
  | CustomerExtendHook
  | WishlistExtendHook.

(** A function object: the closure and its [extend] own property. *)
Record FnObj : Type := mkFnObj {
  fn_code : HookClosure;
  fn_extend : option ModuleFn
}.

(** The function objects alive, by address, and the log of what has been
    done to the outside world. *)
Record Realm : Type := mkRealm {
  heap : gmap nat FnObj;
  net : list Event
}.

(** A new function object at an unused address. *)
Definition alloc (o : FnObj) (r : Realm) : Realm * nat :=
  let l := fresh (dom (heap r)) in
  ({| heap := <[l := o]> (heap r); net := net r |}, l).

(** [l.extend = f] *)
Definition set_extend (l : nat) (f : ModuleFn) (r : Realm) : Realm :=
  {| heap := alter (λ o, {| fn_code := fn_code o; fn_extend := Some f |}) l (heap r);
     net := net r |}.

(** ** account/use-customer *)

Module Customer.

Definition defaultOpts : JsObj :=
  {[ "url" := JStr "/api/bigcommerce/customers"; "method" := JStr "GET" ]}.

Definition fetcher : HookFetcher := λ options _ fetch,
  data ← await (fetch (spread defaultOpts options));
  mret (nullish (optional_chain data "customer") JNull).

(** The body of the [useCustomer] closure. *)
Definition useCustomer (customFetcher : HookFetcher) (swrOptions : option JsObj)
    (ctx : RenderCtx) : Subscription :=
  useCommerceCustomer ctx defaultOpts [] customFetcher
    (spread_opt {[ "revalidateOnFocus" := JBool false ]} swrOptions).

Definition extendHook (customFetcher : HookFetcher) (swrOptions : option JsObj)
    (r : Realm) : Realm * nat :=
  let '(r1, useCustomer) :=
    alloc {| fn_code := UseCustomer customFetcher swrOptions; fn_extend := None |} r in
  let r2 := set_extend useCustomer CustomerExtendHook r1 in
  (r2, useCustomer).

(** [export default extendHook(fetcher)] *)
Definition default_export (r : Realm) : Realm * nat := extendHook fetcher None r.

End Customer.

(** ** wishlist/use-add-item *)

Module Wishlist.

Definition defaultOpts : JsObj :=
  {[ "url" := JStr "/api/bigcommerce/wishlist"; "method" := JStr "POST" ]}.

Definition fetcher : HookFetcher := λ options input fetch,
  match destructure input "item" with
  | None => throw ThrowTypeError
  | Some item =>
      fetch (<["body" := JObj {[ "item" := item ]}]> (spread defaultOpts options))
  end.

Definition addItem (customer : JsVal) (revalidate : Async JsVal)
    (fn : JsVal → Async JsVal) (input : JsVal) : Async JsVal :=
  if negb (truthy customer) then
    throw (ThrowCommerceError
             {| message := "Signed customer not found"; code := None; status := None |})
  else
    data ← await (fn (JObj {[ "item" := input ]}));
    _ ← await revalidate;
    mret data.

(** The body of the [useAddItem] closure. *)
Definition useAddItem (customFetcher : HookFetcher) (ctx : RenderCtx)
    (opts : option JsObj) : JsVal → Async JsVal :=
  let customer := ctx_customer ctx in
  let revalidate := ctx_wishlist_revalidate ctx opts in
  let fn := useWishlistAddItem ctx defaultOpts customFetcher in
  addItem customer revalidate fn.

Definition extendHook (customFetcher : HookFetcher) (r : Realm) : Realm * nat :=
  let '(r1, useAddItem) :=
    alloc {| fn_code := UseAddItem customFetcher; fn_extend := None |} r in
  let r2 := set_extend useAddItem WishlistExtendHook r1 in
  (r2, useAddItem).

(** [export default extendHook(fetcher)] *)
Definition default_export (r : Realm) : Realm * nat := extendHook fetcher r.

End Wishlist.

(** ** Calling hooks and their [extend] property *)

(** [h.extend(customFetcher, swrOptions)]: the function the property refers
    to is called with the arguments; [None] when [h] is no function object
    or has no such property. The wishlist's [extendHook] takes one
    parameter, a second argument is ignored. *)
Definition call_extend (h : nat) (customFetcher : HookFetcher)
    (swrOptions : option JsObj) (r : Realm) : option (Realm * nat) :=
  match heap r !! h with
  | Some o =>
      match fn_extend o with
      | Some CustomerExtendHook => Some (Customer.extendHook customFetcher swrOptions r)
      | Some WishlistExtendHook => Some (Wishlist.extendHook customFetcher r)
      | None => None
      end
  | None => None
  end.

(** What calling a hook in a render gives. *)
Inductive HookResult : Type :=
  | ReadResult (s : Subscription)
  | ActionResult (f : JsVal → Async JsVal).

Definition call_hook (o : FnObj) (ctx : RenderCtx) (opts : option JsObj) : HookResult :=
  match fn_code o with
  | UseCustomer customFetcher swrOptions =>
      ReadResult (Customer.useCustomer customFetcher swrOptions ctx)
  | UseAddItem customFetcher =>
      ActionResult (Wishlist.useAddItem customFetcher ctx opts)
  end.

(** Two hook results no caller can tell apart: the same key, the same
    cache-policy options, and fetches that do the same to the outside world
    and settle alike. *)
Definition same_behaviour (a b : HookResult) : Prop :=
  match a, b with
  | ReadResult s1, ReadResult s2 =>
      sub_key s1 = sub_key s2 ∧ sub_options s1 = sub_options s2 ∧
      ∀ n, sub_fetch s1 n = sub_fetch s2 n
  | ActionResult f, ActionResult g => ∀ input n, f input n = g input n
  | _, _ => False
  end.

Definition empty_realm : Realm := {| heap := ∅; net := [] |}.

(** ** The resource cache *)

Module ResourceCache.

(** Modelled from the spec: the resource cache the read hooks subscribe
    to, of which no source is at hand (the hooks reach it through
    [useCommerceCustomer]). The status of a cache entry. *)
Inductive Status : Type := idle | loading | success | failure.

(** Modelled from the spec: the cache entry, with the subscribers' lease
    tokens in place of their count. *)
Record CacheEntry : Type := mkCacheEntry {
  data : option JsVal;
  error : option CommerceError;
  status : Status;
  subscribers : list nat
}.

Definition subscriberCount (e : CacheEntry) : nat := length (subscribers e).

Definition is_loading (e : CacheEntry) : bool :=
  match status e with loading => true | _ => false end.

(** Modelled from the spec: the cache, of which no source is at hand. The
    entries by key, the next lease token, and the history the cache
    leaves behind: the transport calls issued, those of them not yet
    settled, the leases handed out, and the outcomes delivered to
    subscribers. *)
Record Cache : Type := mkCache {
  entries : gmap string CacheEntry;
  next_token : nat;
  issued : list string;
  in_flight : list string;
  leases : list (string * nat);
  delivered : list (nat * (CommerceError + JsVal))
}.

Definition empty_cache : Cache :=
  {| entries := ∅; next_token := 0; issued := []; in_flight := [];
     leases := []; delivered := [] |}.

(** The first occurrence of [k] taken out of [l]. *)
Fixpoint remove_first (k : string) (l : list string) : list string :=
  match l with
  | [] => []
  | x :: l' => if decide (x = k) then l' else x :: remove_first k l'
  end.

Section Policy.

(** The staleness policy of the cache. *)
Variable stale : CacheEntry → bool.

(** Modelled from the spec: [subscribe], of which no source is at hand.
    Registers a subscriber under a new token. Without an entry, the entry
    is created and a fetch is issued; with a fetch in flight the
    subscriber is enqueued; otherwise a fetch is issued when the entry is
    stale and none when it is fresh. *)
Definition subscribe (key : string) (c : Cache) : Cache * nat :=
  let tok := next_token c in
  match entries c !! key with
  | None =>
      ({| entries := <[key := {| data := None; error := None; status := loading;
                                 subscribers := [tok] |}]> (entries c);
          next_token := S tok;
          issued := issued c ++ [key];
          in_flight := in_flight c ++ [key];
          leases := leases c ++ [(key, tok)];
          delivered := delivered c |}, tok)
  | Some e =>
      if is_loading e then
        ({| entries := <[key := {| data := data e; error := error e; status := loading;
                                   subscribers := subscribers e ++ [tok] |}]> (entries c);
            next_token := S tok;
            issued := issued c;
            in_flight := in_flight c;
            leases := leases c ++ [(key, tok)];
            delivered := delivered c |}, tok)
      else if stale e then
        ({| entries := <[key := {| data := data e; error := error e; status := loading;
                                   subscribers := subscribers e ++ [tok] |}]> (entries c);
            next_token := S tok;
            issued := issued c ++ [key];
            in_flight := in_flight c ++ [key];
            leases := leases c ++ [(key, tok)];
            delivered := delivered c |}, tok)
      else
        ({| entries := <[key := {| data := data e; error := error e; status := status e;
                                   subscribers := subscribers e ++ [tok] |}]> (entries c);
            next_token := S tok;
            issued := issued c;
            in_flight := in_flight c;
            leases := leases c ++ [(key, tok)];
            delivered := delivered c |}, tok)
  end.

(** Modelled from the spec: [unsubscribe], of which no source is at hand.
    Releases the lease [token]: the subscriber leaves the entry. *)
Definition unsubscribe (key : string) (token : nat) (c : Cache) : Cache :=
  match entries c !! key with
  | None => c
  | Some e =>
      {| entries := <[key := {| data := data e; error := error e; status := status e;
                                subscribers := filter (λ t, t ≠ token) (subscribers e) |}]>
                      (entries c);
         next_token := next_token c;
         issued := issued c;
         in_flight := in_flight c;
         leases := leases c;
         delivered := delivered c |}
  end.

(** Modelled from the spec: the failure semantics of a fetch, of which no
    source is at hand. The entry a settled fetch leaves: a success stores the data and
    clears the error, a failure stores the error and keeps the data. *)
Definition settled_entry (outcome : CommerceError + JsVal) (e : CacheEntry) : CacheEntry :=
  match outcome with
  | inr v => {| data := Some v; error := None; status := success;
                subscribers := subscribers e |}
  | inl err => {| data := data e; error := Some err; status := failure;
                  subscribers := subscribers e |}
  end.

(** Modelled from the spec: fetch completion, of which no source is at
    hand. The fetch in flight for [key] settles with [outcome]: the entry is
    updated and every subscriber of the entry receives the outcome. *)
Definition settle (key : string) (outcome : CommerceError + JsVal) (c : Cache) : Cache :=
  if decide (key ∈ in_flight c) then
    match entries c !! key with
    | None =>
        {| entries := entries c; next_token := next_token c; issued := issued c;
           in_flight := remove_first key (in_flight c);
           leases := leases c; delivered := delivered c |}
    | Some e =>
        {| entries := <[key := settled_entry outcome e]> (entries c);
           next_token := next_token c;
           issued := issued c;
           in_flight := remove_first key (in_flight c);
           leases := leases c;
           delivered := delivered c ++ map (λ t, (t, outcome)) (subscribers e) |}
    end
  else c.

(** Modelled from the spec: eviction, of which no source is at hand. An
    entry without subscribers goes, unless a fetch is in flight. *)
Definition evict (key : string) (c : Cache) : Cache :=
  match entries c !! key with
  | None => c
  | Some e =>
      if Nat.eqb (subscriberCount e) 0 && negb (is_loading e) then
        {| entries := delete key (entries c); next_token := next_token c;
           issued := issued c; in_flight := in_flight c;
           leases := leases c; delivered := delivered c |}
      else c
  end.

Inductive Op : Type :=
  | Subscribe (key : string)
  | Unsubscribe (key : string) (token : nat)
  | Settle (key : string) (outcome : CommerceError + JsVal)
  | Evict (key : string).

Definition op_key (op : Op) : string :=
  match op with
  | Subscribe k | Unsubscribe k _ | Settle k _ | Evict k => k
  end.

Definition step (op : Op) (c : Cache) : Cache :=
  match op with
  | Subscribe k => fst (subscribe k c)
  | Unsubscribe k t => unsubscribe k t c
  | Settle k o => settle k o c
  | Evict k => evict k c
  end.

(** The operations of a trace, one after the other. *)
Definition run (ops : list Op) (c : Cache) : Cache :=
  foldl (λ c op, step op c) c ops.

End Policy.

(** How often [k] occurs in [l]. *)
Definition count (k : string) (l : list string) : nat :=
  length (filter (λ x, x = k) l).

(** The tokens of the leases on [k] among [l]. *)
Definition lease_tokens (k : string) (l : list (string * nat)) : list nat :=
  (filter (λ p, p.1 = k) l).*2.

(** Whether [op] is [Subscribe k]. *)
Definition is_subscribe (k : string) (op : Op) : bool :=
  match op with
  | Subscribe k' => bool_decide (k' = k)
  | _ => false
  end.

(** The operations of the trace on [k] are all [Subscribe k]. *)
Definition only_subscribes (k : string) (ops : list Op) : bool :=
  forallb (λ op, is_subscribe k op || negb (bool_decide (op_key op = k))) ops.

(** The number of [Subscribe k] in the trace. *)
Definition subscribes (k : string) (ops : list Op) : nat :=
  length (filter (λ op, is_subscribe k op = true) ops).

(** The transport calls in flight are those of the entries that are
    loading, one each. *)
Definition coherent (c : Cache) : Prop :=
  ∀ k : string,
    count k (in_flight c)
    = match entries c !! k with
      | Some e => if is_loading e then 1 else 0
      | None => 0
      end.

End ResourceCache.

(** ** Hooks, fetchers and contexts the statements speak of *)

(** A render context for the examples: a recording transport that answers
    every request with [answer], the customer [customer], and a wishlist
    revalidation that leaves its mark in the log. *)
Definition sample_ctx (customer answer : JsVal) : RenderCtx :=
  {| ctx_fetch := transport (λ _, inr answer);
     ctx_customer := customer;
     ctx_wishlist_revalidate := λ _, _ ← emit Revalidate; mret (JBool true) |}.

Definition sample_item : JsVal := JObj {[ "productId" := JNum 7 ]}.

Definition sample_customer : JsVal := JObj {[ "email" := JStr "a@b.com" ]}.

(** The function object [extendHook] of module [m] leaves at the new
    address. *)
Definition new_hook (m : ModuleFn) (customFetcher : HookFetcher)
    (swrOptions : option JsObj) : FnObj :=
  match m with
  | CustomerExtendHook =>
      {| fn_code := UseCustomer customFetcher swrOptions;
         fn_extend := Some CustomerExtendHook |}
  | WishlistExtendHook =>
      {| fn_code := UseAddItem customFetcher; fn_extend := Some WishlistExtendHook |}
  end.

(** The default fetcher of the module an [extend] property belongs to. *)
Definition module_fetcher (m : ModuleFn) : HookFetcher :=
  match m with
  | CustomerExtendHook => Customer.fetcher
  | WishlistExtendHook => Wishlist.fetcher
  end.

Definition sample_realm : Realm := fst (Customer.default_export empty_realm).

(** A custom fetcher that answers by itself and leaves its mark in the
    log, and one that hands the request spec to the fetch function it is
    given. *)
Definition answering_fetcher (tag : string) : HookFetcher :=
  λ _ _ _, _ ← emit (Custom tag); mret (JStr tag).

Definition forwarding_fetcher : HookFetcher :=
  λ options _ rawTransport, rawTransport options.

(** The function object reached from the default customer hook by
    [.extend(f1, o1)] and, on the result, [.extend(f2, o2)]. *)
Definition extended_twice (f1 f2 : HookFetcher) (o1 o2 : option JsObj) : option FnObj :=
  let '(r0, h0) := Customer.default_export empty_realm in
  '(r1, h1) ← call_extend h0 f1 o1 r0;
  '(r2, h2) ← call_extend h1 f2 o2 r1;
  heap r2 !! h2.

(** The same with one [.extend(f1, o1)]. *)
Definition extended_once (f1 : HookFetcher) (o1 : option JsObj) : option FnObj :=
  let '(r0, h0) := Customer.default_export empty_realm in
  '(r1, h1) ← call_extend h0 f1 o1 r0;
  heap r1 !! h1.

(** The transport chain in which [f1] is layered inside [f2]: the fetch
    function [f2] receives is [f1] on top of the fetch function of the
    provider. *)
Definition layered_fetcher (f1 f2 : HookFetcher) : HookFetcher :=
  λ options input fetch, f2 options input (λ req, f1 req input fetch).

(** The fetch a read hook hands to the cache, run on an empty log. *)
Definition run_read (o : FnObj) (ctx : RenderCtx) : option (list Event * (Thrown + JsVal)) :=
  match call_hook o ctx None with
  | ReadResult s => Some (sub_fetch s [])
  | ActionResult _ => None
  end.

(** The cache-policy options a hook is bound to. *)
Definition bound_options (o : FnObj) (ctx : RenderCtx) : option JsObj :=
  match call_hook o ctx None with
  | ReadResult s => Some (sub_options s)
  | ActionResult _ => None
  end.

(** [o.k] for options that may be [undefined]. *)
Definition option_of (o : option JsObj) (k : string) : option JsVal :=
  match o with
  | Some m => m !! k
  | None => None
  end.

(** A fetcher that forwards its arguments to [g]. *)
Definition forwards_to (f g : HookFetcher) : Prop :=
  ∀ (options : JsObj) (input : JsVal) (fetch : Fetch) (n : list Event),
    f options input fetch n = g options input fetch n.

Definition sample_trace : list ResourceCache.Op :=
  [ResourceCache.Subscribe "customer"; ResourceCache.Subscribe "wishlist";
   ResourceCache.Subscribe "customer"; ResourceCache.Subscribe "customer"].

(** A wishlist revalidation that leaves its mark in the log and rejects. *)
Definition failing_revalidate : option JsObj → Async JsVal :=
  λ _, _ ← emit Revalidate; throw (ThrowValue (JStr "offline")).

(** ** Chains of [extend] *)

(** [h.extend(f1, o1).extend(f2, o2)...]: each [extend] is called on the
    hook the previous one returned; the addresses of the hooks built, in
    order. *)
Fixpoint extend_chain (h : nat) (exts : list (HookFetcher * option JsObj))
    (r : Realm) : option (Realm * list nat) :=
  match exts with
  | [] => Some (r, [])
  | (customFetcher, swrOptions) :: exts' =>
      '(r1, h1) ← call_extend h customFetcher swrOptions r;
      '(r2, hs) ← extend_chain h1 exts' r1;
      Some (r2, h1 :: hs)
  end.

(** ** dns-cached-resolve: [resolve4] and [resolve6] *)

Module DnsResolve.

(** The state of a promise. *)
Inductive PromiseState : Type :=
  | Pending
  | Fulfilled (v : JsVal)
  | Rejected (e : Thrown).

(** The [resolve] and [reject] functions an executor receives: a promise
    settles once, later calls change nothing. *)
Definition promise_resolve (v : JsVal) (p : PromiseState) : PromiseState :=
  match p with
  | Pending => Fulfilled v
  | _ => p
  end.

Definition promise_reject (e : Thrown) (p : PromiseState) : PromiseState :=
  match p with
  | Pending => Rejected e
  | _ => p
  end.

(** What a call of a resolver method does: the calls [(err, res)] it makes
    to the callback before it returns or throws, the error it throws, if
    it throws, and the calls it makes to the callback later on. *)
Record MethodRun : Type := mkMethodRun {
  calls_during : list (JsVal * JsVal);
  thrown : option Thrown;
  calls_after : list (JsVal * JsVal)
}.

(** A resolver object: each of its methods, from the host and the options
    to what the call does; [None] when the object has no such method. *)
Record Resolver : Type := mkResolver {
  resolver_resolve4 : option (string → JsObj → MethodRun);
  resolver_resolve6 : option (string → JsObj → MethodRun)
}.

(** [(err, res) => { if (err) return reject(err); resolve(res); }] *)
Definition callback (err res : JsVal) (p : PromiseState) : PromiseState :=
  if truthy err then promise_reject (ThrowValue err) p
  else promise_resolve res p.

(** The promise after the callback has received [calls], one after the
    other. *)
Definition deliver (calls : list (JsVal * JsVal)) (p : PromiseState) : PromiseState :=
  foldl (λ p call, callback call.1 call.2 p) p calls.

(** [new Promise(executor)] for an executor that makes the method call
    [run]: an error thrown inside the executor rejects the promise; the
    callback may still be called afterwards. *)
Definition new_promise (run : MethodRun) : PromiseState :=
  let during := deliver (calls_during run) Pending in
  let returned :=
    match thrown run with
    | Some e => promise_reject e during
    | None => during
    end in
  deliver (calls_after run) returned.

(** Calling a method the resolver does not have throws a [TypeError]
    inside the executor. *)
Definition resolve4 (host : string) (resolver : Resolver) : PromiseState :=
  match resolver_resolve4 resolver with
  | Some method => new_promise (method host {[ "ttl" := JBool true ]})
  | None => new_promise {| calls_during := []; thrown := Some ThrowTypeError;
                           calls_after := [] |}
  end.

Definition resolve6 (host : string) (resolver : Resolver) : PromiseState :=
  match resolver_resolve6 resolver with
  | Some method => new_promise (method host {[ "ttl" := JBool true ]})
  | None => new_promise {| calls_during := []; thrown := Some ThrowTypeError;
                           calls_after := [] |}
  end.

(** What one call [(err, res)] to the callback makes of a pending
    promise. *)
Definition settled_by (err res : JsVal) : PromiseState :=
  if truthy err then Rejected (ThrowValue err) else Fulfilled res.

(** What the first thing a method call does to the promise makes of it:
    its first call to the callback before it returns or throws, else the
    error it throws, else its first later call to the callback. *)
Definition first_settlement (run : MethodRun) : PromiseState :=
  match calls_during run with
  | (err, res) :: _ => settled_by err res
  | [] =>
      match thrown run with
      | Some e => Rejected e
      | None =>
          match calls_after run with
          | (err, res) :: _ => settled_by err res
          | [] => Pending
          end
      end
  end.

(** A resolver whose methods call back later with the given calls when
    asked with [ttl: true], and throw otherwise. *)
Definition sample_resolver (calls4 calls6 : list (JsVal * JsVal)) : Resolver :=
  {| resolver_resolve4 :=
       Some (λ _ options,
               match options !! "ttl" with
               | Some (JBool true) =>
                   {| calls_during := []; thrown := None; calls_after := calls4 |}
               | _ => {| calls_during := []; thrown := Some (ThrowValue (JStr "EBADOPTIONS"));
                         calls_after := [] |}
               end);
     resolver_resolve6 :=
       Some (λ _ options,
               match options !! "ttl" with
               | Some (JBool true) =>
                   {| calls_during := []; thrown := None; calls_after := calls6 |}
               | _ => {| calls_during := []; thrown := Some (ThrowValue (JStr "EBADOPTIONS"));
                         calls_after := [] |}
               end) |}.

(** A resolver whose [resolve4] throws after a first call to the callback
    and whose [resolve6] throws at once. *)
Definition throwing_resolver : Resolver :=
  {| resolver_resolve4 :=
       Some (λ _ _, {| calls_during := [(JNull, JStr "54.153.55.116")];
                       thrown := Some (ThrowValue (JStr "EBADNAME"));
                       calls_after := [] |});
     resolver_resolve6 :=
       Some (λ _ _, {| calls_during := [];
                       thrown := Some (ThrowValue (JStr "EBADNAME"));
                       calls_after := [(JNull, JStr "::1")] |}) |}.

End DnsResolve.

(** * Facts *)

(** ** The embedding at work *)

Example spread_later_wins :
  spread {[ "url" := JStr "/a"; "method" := JStr "GET" ]} {[ "url" := JStr "/b" ]}
  = {[ "url" := JStr "/b"; "method" := JStr "GET" ]}.
Proof. reflexivity. Qed.

Example bind_runs_in_order :
  (_ ← emit (Custom "a"); _ ← await (emit (Custom "b")); mret 3%Z) []
  = ([Custom "a"; Custom "b"; Suspend], inr 3%Z).
Proof. reflexivity. Qed.

Example bind_stops_at_throw :
  (_ ← emit (Custom "a"); _ ← @throw unit ThrowTypeError; emit (Custom "b")) []
  = ([Custom "a"], inl ThrowTypeError).
Proof. reflexivity. Qed.

Example default_customer_hook_address :
  snd (Customer.default_export empty_realm) = 0.
Proof. reflexivity. Qed.

Example two_hooks_addresses :
  let '(r1, h1) := Customer.default_export empty_realm in
  let '(r2, h2) := Wishlist.default_export r1 in
  (h1, h2, fn_extend <$> heap r2 !! h1, fn_extend <$> heap r2 !! h2)
  = (0, 1, Some (Some CustomerExtendHook), Some (Some WishlistExtendHook)).
Proof. reflexivity. Qed.

(** ** wishlist/use-add-item: [addItem] *)

Section AddItem.

Variables (customFetcher : HookFetcher) (ctx : RenderCtx) (opts : option JsObj).

Lemma addItem_unfold_signed input n :
  truthy (ctx_customer ctx) = true →
  Wishlist.useAddItem customFetcher ctx opts input n =
    match useWishlistAddItem ctx Wishlist.defaultOpts customFetcher
            (JObj {[ "item" := input ]}) n with
    | (n1, inr data) =>
        match ctx_wishlist_revalidate ctx opts (n1 ++ [Suspend]) with
        | (n2, inr _) => (n2 ++ [Suspend], inr data)
        | (n2, inl e) => (n2 ++ [Suspend], inl e)
        end
    | (n1, inl e) => (n1 ++ [Suspend], inl e)
    end.
Proof.
  intros Hc. unfold Wishlist.useAddItem, Wishlist.addItem. rewrite Hc. simpl.
  unfold mbind, Async_bind, bind, await, mret, Async_ret, resolve.
  destruct (useWishlistAddItem _ _ _ _ n) as [n1 [e|data]]; [reflexivity|].
  destruct (ctx_wishlist_revalidate _ _ _) as [n2 [e|r]]; reflexivity.
Qed.

Lemma addItem_success_signed input n n' v :
  Wishlist.useAddItem customFetcher ctx opts input n = (n', inr v) →
  truthy (ctx_customer ctx) = true.
Proof.
  unfold Wishlist.useAddItem, Wishlist.addItem.
  destruct (truthy (ctx_customer ctx)); [reflexivity|].
  simpl. unfold throw. discriminate.
Qed.

End AddItem.

(** C1. Without a signed customer, [addItem] rejects with the
    [CommerceError] whose message is "Signed customer not found"; the log is
    the one it started from, whatever the fetcher, the fetch function and
    the revalidation are: no transport call was made and no suspension
    point was passed before the error. *)
Theorem addItem_without_customer_rejects :
  ∀ (customFetcher : HookFetcher) (ctx : RenderCtx) (opts : option JsObj)
    (input : JsVal) (n : list Event),
    truthy (ctx_customer ctx) = false →
    ∃ e : CommerceError,
      Wishlist.useAddItem customFetcher ctx opts input n
      = (n, inl (ThrowCommerceError e))
      ∧ message e = "Signed customer not found".
Proof.
  intros cf ctx opts input n Hc.
  unfold Wishlist.useAddItem, Wishlist.addItem. rewrite Hc.
  eexists. split; reflexivity.
Qed.

Lemma addItem_without_customer_rejects_witness :
  truthy (ctx_customer (sample_ctx JNull JNull)) = false ∧
  ∃ e : CommerceError,
    Wishlist.useAddItem Wishlist.fetcher (sample_ctx JNull JNull) None sample_item []
    = ([], inl (ThrowCommerceError e))
    ∧ message e = "Signed customer not found".
Proof.
  split; [reflexivity|].
  apply (addItem_without_customer_rejects Wishlist.fetcher (sample_ctx JNull JNull)
           None sample_item []).
  reflexivity.
Defined.

(** C4. When [addItem] resolves, the fetcher's promise has resolved first,
    then the wishlist revalidation has been started and has run to its
    resolution, and only after that second suspension does [addItem]
    resolve: the log at resolution is the log the revalidation left. *)
Theorem addItem_awaits_revalidation :
  ∀ (customFetcher : HookFetcher) (ctx : RenderCtx) (opts : option JsObj)
    (input data : JsVal) (n n' : list Event),
    Wishlist.useAddItem customFetcher ctx opts input n = (n', inr data) →
    ∃ (n1 n2 : list Event) (r : JsVal),
      useWishlistAddItem ctx Wishlist.defaultOpts customFetcher
        (JObj {[ "item" := input ]}) n = (n1, inr data)
      ∧ ctx_wishlist_revalidate ctx opts (n1 ++ [Suspend]) = (n2, inr r)
      ∧ n' = n2 ++ [Suspend].
Proof.
  intros cf ctx opts input data n n' H.
  pose proof (addItem_success_signed _ _ _ _ _ _ _ H) as Hc.
  rewrite (addItem_unfold_signed _ _ _ _ _ Hc) in H.
  destruct (useWishlistAddItem _ _ _ _ n) as [n1 [e|d]]; [discriminate|].
  destruct (ctx_wishlist_revalidate _ _ _) as [n2 [e|r]] eqn:Hr; [discriminate|].
  injection H as <- <-. exists n1, n2, r. auto.
Qed.

Lemma addItem_awaits_revalidation_witness :
  Wishlist.useAddItem Wishlist.fetcher (sample_ctx (JObj ∅) (JStr "wishlist"))
    None sample_item []
  = ([Transport (<["body" := JObj {[ "item" := sample_item ]}]> Wishlist.defaultOpts);
      Suspend; Revalidate; Suspend], inr (JStr "wishlist"))
  ∧ ∃ (n1 n2 : list Event) (r : JsVal),
      useWishlistAddItem (sample_ctx (JObj ∅) (JStr "wishlist")) Wishlist.defaultOpts
        Wishlist.fetcher (JObj {[ "item" := sample_item ]}) [] = (n1, inr (JStr "wishlist"))
      ∧ ctx_wishlist_revalidate (sample_ctx (JObj ∅) (JStr "wishlist")) None
          (n1 ++ [Suspend]) = (n2, inr r)
      ∧ [Transport (<["body" := JObj {[ "item" := sample_item ]}]> Wishlist.defaultOpts);
         Suspend; Revalidate; Suspend] = n2 ++ [Suspend].
Proof.
  assert (Wishlist.useAddItem Wishlist.fetcher (sample_ctx (JObj ∅) (JStr "wishlist"))
            None sample_item []
          = ([Transport (<["body" := JObj {[ "item" := sample_item ]}]> Wishlist.defaultOpts);
              Suspend; Revalidate; Suspend], inr (JStr "wishlist"))) as H
    by reflexivity.
  split; [exact H|].
  exact (addItem_awaits_revalidation _ _ _ _ _ _ _ H).
Defined.

(** C10. The value [addItem] resolves with is the value the fetcher's
    promise resolved with for [{ item: input }], unchanged. *)
Theorem addItem_resolves_with_fetcher_value :
  ∀ (customFetcher : HookFetcher) (ctx : RenderCtx) (opts : option JsObj)
    (input v : JsVal) (n n' : list Event),
    Wishlist.useAddItem customFetcher ctx opts input n = (n', inr v) →
    ∃ n1 : list Event,
      customFetcher Wishlist.defaultOpts (JObj {[ "item" := input ]}) (ctx_fetch ctx) n
      = (n1, inr v).
Proof.
  intros cf ctx opts input v n n' H.
  pose proof (addItem_success_signed _ _ _ _ _ _ _ H) as Hc.
  rewrite (addItem_unfold_signed _ _ _ _ _ Hc) in H.
  unfold useWishlistAddItem in H.
  destruct (cf _ _ _ n) as [n1 [e|d]]; [discriminate|].
  destruct (ctx_wishlist_revalidate _ _ _) as [n2 [e|r]]; [discriminate|].
  injection H as _ <-. by exists n1.
Qed.

Lemma addItem_resolves_with_fetcher_value_witness :
  Wishlist.useAddItem Wishlist.fetcher (sample_ctx (JObj ∅) (JStr "wishlist"))
    (Some ∅) sample_item [Custom "before"]
  = ([Custom "before";
      Transport (<["body" := JObj {[ "item" := sample_item ]}]> Wishlist.defaultOpts);
      Suspend; Revalidate; Suspend], inr (JStr "wishlist"))
  ∧ ∃ n1 : list Event,
      Wishlist.fetcher Wishlist.defaultOpts (JObj {[ "item" := sample_item ]})
        (ctx_fetch (sample_ctx (JObj ∅) (JStr "wishlist"))) [Custom "before"]
      = (n1, inr (JStr "wishlist")).
Proof.
  assert (Wishlist.useAddItem Wishlist.fetcher (sample_ctx (JObj ∅) (JStr "wishlist"))
            (Some ∅) sample_item [Custom "before"]
          = ([Custom "before";
              Transport (<["body" := JObj {[ "item" := sample_item ]}]> Wishlist.defaultOpts);
              Suspend; Revalidate; Suspend], inr (JStr "wishlist"))) as H
    by reflexivity.
  split; [exact H|].
  exact (addItem_resolves_with_fetcher_value _ _ _ _ _ _ _ H).
Defined.

(** ** The default fetchers *)

Lemma lookup_spread (a b : JsObj) (k : string) :
  spread a b !! k = match b !! k with Some v => Some v | None => a !! k end.
Proof.
  unfold spread. rewrite lookup_union. destruct (b !! k), (a !! k); reflexivity.
Qed.

Lemma customer_fetcher_unfold options input (fetch : Fetch) n :
  Customer.fetcher options input fetch n =
    match fetch (spread Customer.defaultOpts options) n with
    | (n1, inr data) =>
        (n1 ++ [Suspend], inr (nullish (optional_chain data "customer") JNull))
    | (n1, inl e) => (n1 ++ [Suspend], inl e)
    end.
Proof.
  unfold Customer.fetcher, mbind, Async_bind, bind, await, mret, Async_ret, resolve.
  destruct (fetch _ n) as [n1 [e|data]]; reflexivity.
Qed.




Example customer_fetcher_body_with_customer :
  Customer.fetcher ∅ JUndefined
    (transport (λ _, inr (JObj {[ "customer" := sample_customer ]}))) []
  = ([Transport Customer.defaultOpts; Suspend], inr sample_customer).
Proof. reflexivity. Qed.

Example customer_fetcher_null_body :
  Customer.fetcher ∅ JUndefined (transport (λ _, inr JNull)) []
  = ([Transport Customer.defaultOpts; Suspend], inr JNull).
Proof. reflexivity. Qed.

Example customer_fetcher_undefined_body :
  Customer.fetcher ∅ JUndefined (transport (λ _, inr JUndefined)) []
  = ([Transport Customer.defaultOpts; Suspend], inr JNull).
Proof. reflexivity. Qed.

Example customer_fetcher_rejection_propagates :
  Customer.fetcher ∅ JUndefined (transport (λ _, inl (ThrowValue (JStr "offline")))) []
  = ([Transport Customer.defaultOpts; Suspend], inl (ThrowValue (JStr "offline"))).
Proof. reflexivity. Qed.

Lemma wishlist_fetcher_unfold options input item (fetch : Fetch) :
  destructure input "item" = Some item →
  Wishlist.fetcher options input fetch
  = fetch (<["body" := JObj {[ "item" := item ]}]> (spread Wishlist.defaultOpts options)).
Proof. intros H. unfold Wishlist.fetcher. rewrite H. reflexivity. Qed.

(** C5, counterexample. The default wishlist fetcher called with options
    that carry a [body]: the request the transport receives has the body
    made from the input, not the one of the options, and so is not the
    merge of the hook's defaults and the options. *)
Lemma wishlist_fetcher_replaces_options_body :
  ∃ req : JsObj,
    fst (Wishlist.fetcher {[ "body" := JStr "mine" ]}
           (JObj {[ "item" := sample_item ]}) (transport (λ _, inr JNull)) [])
    = [Transport req]
    ∧ ({[ "body" := JStr "mine" ]} : JsObj) !! "body" = Some (JStr "mine")
    ∧ req !! "body" = Some (JObj {[ "item" := sample_item ]})
    ∧ req !! "body" ≠ ({[ "body" := JStr "mine" ]} : JsObj) !! "body"
    ∧ req ≠ spread Wishlist.defaultOpts {[ "body" := JStr "mine" ]}.
Proof.
  eexists. repeat (split; [reflexivity|]).
  split; [discriminate|].
  intros Heq. apply (f_equal (λ m : JsObj, m !! "body")) in Heq.
  discriminate Heq.
Qed.

(** C5, as the code has it. The request spec the default fetchers pass to
    the transport is the shallow merge of the hook's [defaultOpts] and the
    options of the call, for every options object: a field of the options
    takes the options' value, a field the options do not have takes the
    hook's default. The wishlist fetcher then sets [body] to the object
    made from the input's [item], whatever [body] the options carry; on an
    input that cannot be destructured it throws and sends nothing. *)
Theorem request_spec_merge_then_body :
  ∀ (options : JsObj) (input : JsVal) (server : JsObj → Thrown + JsVal)
    (n : list Event),
    (∃ req : JsObj,
       fst (Customer.fetcher options input (transport server) n)
       = n ++ [Transport req; Suspend]
       ∧ (∀ (k : string) (v : JsVal), options !! k = Some v → req !! k = Some v)
       ∧ (∀ k : string, options !! k = None → req !! k = Customer.defaultOpts !! k))
    ∧ match destructure input "item" with
      | None =>
          Wishlist.fetcher options input (transport server) n = (n, inl ThrowTypeError)
      | Some item =>
          ∃ req : JsObj,
            fst (Wishlist.fetcher options input (transport server) n)
            = n ++ [Transport req]
            ∧ req !! "body" = Some (JObj {[ "item" := item ]})
            ∧ (∀ (k : string) (v : JsVal),
                 k ≠ "body" → options !! k = Some v → req !! k = Some v)
            ∧ (∀ k : string,
                 k ≠ "body" → options !! k = None →
                 req !! k = Wishlist.defaultOpts !! k)
      end.
Proof.
  intros options input server n. split.
  - exists (spread Customer.defaultOpts options).
    rewrite customer_fetcher_unfold. unfold transport.
    destruct (server _) as [e|data]; simpl;
      (split; [by rewrite <- app_assoc|]);
      (split; [intros k v Hk | intros k Hk]); by rewrite lookup_spread, Hk.
  - destruct (destructure input "item") as [item|] eqn:Hitem.
    + exists (<["body" := JObj {[ "item" := item ]}]> (spread Wishlist.defaultOpts options)).
      rewrite (wishlist_fetcher_unfold _ _ _ _ Hitem). unfold transport. simpl.
      split; [reflexivity|]. split; [apply lookup_insert_eq|]. split.
      * intros k v Hne Hk. by rewrite lookup_insert_ne, lookup_spread, Hk.
      * intros k Hne Hk. by rewrite lookup_insert_ne, lookup_spread, Hk.
    + unfold Wishlist.fetcher. by rewrite Hitem.
Qed.

Example request_spec_of_both_fetchers :
  (fst (Customer.fetcher {[ "url" := JStr "/my/customers" ]} JUndefined
          (transport (λ _, inr JNull)) []),
   fst (Wishlist.fetcher {[ "url" := JStr "/my/wishlist" ]}
          (JObj {[ "item" := sample_item ]}) (transport (λ _, inr JNull)) []))
  = ([Transport {[ "url" := JStr "/my/customers"; "method" := JStr "GET" ]}; Suspend],
     [Transport {[ "url" := JStr "/my/wishlist"; "method" := JStr "POST";
                   "body" := JObj {[ "item" := sample_item ]} ]}]).
Proof. reflexivity. Qed.

Example wishlist_request_spec :
  fst (Wishlist.fetcher {[ "url" := JStr "/my/wishlist" ]}
         (JObj {[ "item" := sample_item ]}) (transport (λ _, inr JNull)) [])
  = [Transport {[ "url" := JStr "/my/wishlist"; "method" := JStr "POST";
                  "body" := JObj {[ "item" := sample_item ]} ]}].
Proof. reflexivity. Qed.

Example wishlist_body_comes_from_input :
  fst (Wishlist.fetcher {[ "body" := JStr "mine" ]}
         (JObj {[ "item" := sample_item ]}) (transport (λ _, inr JNull)) [])
  = [Transport {[ "url" := JStr "/api/bigcommerce/wishlist"; "method" := JStr "POST";
                  "body" := JObj {[ "item" := sample_item ]} ]}].
Proof. reflexivity. Qed.

(** ** Hook construction and [extend] *)

Lemma fresh_unused (r : Realm) : heap r !! fresh (dom (heap r)) = None.
Proof. apply not_elem_of_dom, is_fresh. Qed.

Lemma customer_extendHook_eq f o r :
  Customer.extendHook f o r
  = ({| heap := <[fresh (dom (heap r)) := new_hook CustomerExtendHook f o]> (heap r);
        net := net r |}, fresh (dom (heap r))).
Proof.
  unfold Customer.extendHook, alloc, set_extend. simpl.
  by rewrite alter_insert_eq.
Qed.

Lemma wishlist_extendHook_eq f o r :
  Wishlist.extendHook f r
  = ({| heap := <[fresh (dom (heap r)) := new_hook WishlistExtendHook f o]> (heap r);
        net := net r |}, fresh (dom (heap r))).
Proof.
  unfold Wishlist.extendHook, alloc, set_extend. simpl.
  by rewrite alter_insert_eq.
Qed.

Lemma call_extend_eq h H m f o r :
  heap r !! h = Some H → fn_extend H = Some m →
  call_extend h f o r
  = Some ({| heap := <[fresh (dom (heap r)) := new_hook m f o]> (heap r);
             net := net r |}, fresh (dom (heap r))).
Proof.
  intros Hh Hm. unfold call_extend. rewrite Hh, Hm. destruct m.
  - by rewrite customer_extendHook_eq.
  - by rewrite (wishlist_extendHook_eq f o).
Qed.

Lemma call_extend_inv h f o r r' h' :
  call_extend h f o r = Some (r', h') →
  ∃ H m, heap r !! h = Some H ∧ fn_extend H = Some m
         ∧ h' = fresh (dom (heap r))
         ∧ r' = {| heap := <[h' := new_hook m f o]> (heap r); net := net r |}.
Proof.
  intros Hc.
  destruct (heap r !! h) as [H|] eqn:Hh;
    [|unfold call_extend in Hc; rewrite Hh in Hc; discriminate].
  destruct (fn_extend H) as [m|] eqn:Hm;
    [|unfold call_extend in Hc; rewrite Hh, Hm in Hc; discriminate].
  rewrite (call_extend_eq h H m f o r Hh Hm) in Hc.
  injection Hc as <- <-. exists H, m. auto.
Qed.

(** C7. [H.extend(customFetcher, swrOptions)] on a hook with the property
    returns; the log of the outside world is as before, the address
    returned was unused, the function object there has an [extend] property
    again, and [H] as well as every other function object is as before. *)
Theorem extend_is_pure_construction :
  ∀ (h : nat) (H : FnObj) (customFetcher : HookFetcher)
    (swrOptions : option JsObj) (r : Realm),
    heap r !! h = Some H → is_Some (fn_extend H) →
    ∃ (r' : Realm) (h' : nat) (H' : FnObj),
      call_extend h customFetcher swrOptions r = Some (r', h')
      ∧ net r' = net r
      ∧ heap r !! h' = None
      ∧ heap r' !! h' = Some H'
      ∧ is_Some (fn_extend H')
      ∧ heap r' !! h = Some H
      ∧ (∀ (l : nat) (o : FnObj), heap r !! l = Some o → heap r' !! l = Some o).
Proof.
  intros h H f o r Hh [m Hm].
  eexists _, _, (new_hook m f o).
  split; [exact (call_extend_eq h H m f o r Hh Hm)|]. simpl.
  assert (∀ l x, heap r !! l = Some x →
            <[fresh (dom (heap r)) := new_hook m f o]> (heap r) !! l = Some x) as Hframe.
  { intros l x Hl. rewrite lookup_insert_ne; [done|].
    intros <-. rewrite fresh_unused in Hl. discriminate. }
  repeat split.
  - apply fresh_unused.
  - apply lookup_insert_eq.
  - destruct m; by eexists.
  - by apply Hframe.
  - exact Hframe.
Qed.

Lemma extend_is_pure_construction_witness :
  heap sample_realm !! 0 = Some (new_hook CustomerExtendHook Customer.fetcher None)
  ∧ is_Some (fn_extend (new_hook CustomerExtendHook Customer.fetcher None))
  ∧ ∃ (r' : Realm) (h' : nat) (H' : FnObj),
      call_extend 0 Wishlist.fetcher None sample_realm = Some (r', h')
      ∧ net r' = net sample_realm
      ∧ heap sample_realm !! h' = None
      ∧ heap r' !! h' = Some H'
      ∧ is_Some (fn_extend H')
      ∧ heap r' !! 0 = Some (new_hook CustomerExtendHook Customer.fetcher None)
      ∧ (∀ (l : nat) (o : FnObj),
           heap sample_realm !! l = Some o → heap r' !! l = Some o).
Proof.
  assert (heap sample_realm !! 0
          = Some (new_hook CustomerExtendHook Customer.fetcher None)) as Hh
    by reflexivity.
  assert (is_Some (fn_extend (new_hook CustomerExtendHook Customer.fetcher None))) as Hx
    by (simpl; eauto).
  split; [exact Hh|]. split; [exact Hx|].
  exact (extend_is_pure_construction 0 _ Wishlist.fetcher None sample_realm Hh Hx).
Defined.

(** C2, counterexample. Extend the default customer hook with a fetcher
    [f1] that answers by itself, then the result with a fetcher [f2] that
    forwards to the fetch function it receives: the request reaches the
    provider's transport and [f1] never runs, whereas with [f1] layered
    inside [f2] the answer would be the one of [f1]. *)
Lemma extend_discards_previous_fetcher :
  ∃ H2 : FnObj,
    extended_twice (answering_fetcher "f1") forwarding_fetcher None None = Some H2
    ∧ run_read H2 (sample_ctx JNull (JStr "transport"))
      = Some ([Transport Customer.defaultOpts], inr (JStr "transport"))
    ∧ layered_fetcher (answering_fetcher "f1") forwarding_fetcher
        Customer.defaultOpts (JObj ∅) (ctx_fetch (sample_ctx JNull (JStr "transport"))) []
      = ([Custom "f1"], inr (JStr "f1"))
    ∧ run_read H2 (sample_ctx JNull (JStr "transport"))
      ≠ Some (layered_fetcher (answering_fetcher "f1") forwarding_fetcher
                Customer.defaultOpts (JObj ∅)
                (ctx_fetch (sample_ctx JNull (JStr "transport"))) []).
Proof.
  eexists. repeat (split; [reflexivity|]).
  simpl. intros Heq. apply (f_equal (fmap snd)) in Heq. discriminate.
Qed.

(** C2, as the code has it. [.extend(f2, o2)] on a hook obtained by
    [.extend(f1, o1)] returns, and the hook it builds is bound to [f2] and
    [o2] alone: it is the function object [extendHook(f2, o2)] builds,
    whatever [f1] and [o1] were, and the fetch function [f2] receives is
    the one set by the provider. *)
Theorem extend_twice_binds_last_fetcher_only :
  ∀ (h0 : nat) (f1 f2 : HookFetcher) (o1 o2 : option JsObj) (r r1 : Realm) (h1 : nat),
    call_extend h0 f1 o1 r = Some (r1, h1) →
    ∃ (m : ModuleFn) (r2 : Realm) (h2 : nat),
      call_extend h1 f2 o2 r1 = Some (r2, h2)
      ∧ heap r2 !! h2 = Some (new_hook m f2 o2)
      ∧ ∀ (ctx : RenderCtx) (opts : option JsObj),
          call_hook (new_hook m f2 o2) ctx opts
          = match m with
            | CustomerExtendHook =>
                ReadResult
                  {| sub_key := (Customer.defaultOpts, []);
                     sub_fetch := f2 Customer.defaultOpts (JObj ∅) (ctx_fetch ctx);
                     sub_options :=
                       spread_opt {[ "revalidateOnFocus" := JBool false ]} o2 |}
            | WishlistExtendHook =>
                ActionResult
                  (Wishlist.addItem (ctx_customer ctx) (ctx_wishlist_revalidate ctx opts)
                     (λ input, f2 Wishlist.defaultOpts input (ctx_fetch ctx)))
            end.
Proof.
  intros h0 f1 f2 o1 o2 r r1 h1 H1.
  apply call_extend_inv in H1 as (H & m & Hh & Hm & -> & ->).
  exists m. eexists _, _. split.
  - apply (call_extend_eq _ (new_hook m f1 o1) m); simpl.
    + apply lookup_insert_eq.
    + by destruct m.
  - simpl. split; [apply lookup_insert_eq|].
    intros ctx opts. by destruct m.
Qed.

Lemma extend_twice_binds_last_fetcher_only_witness :
  call_extend 0 (answering_fetcher "f1") None sample_realm
  = Some (fst (Customer.extendHook (answering_fetcher "f1") None sample_realm), 1)
  ∧ ∃ (m : ModuleFn) (r2 : Realm) (h2 : nat),
      call_extend 1 forwarding_fetcher None
        (fst (Customer.extendHook (answering_fetcher "f1") None sample_realm))
      = Some (r2, h2)
      ∧ heap r2 !! h2 = Some (new_hook m forwarding_fetcher None)
      ∧ ∀ (ctx : RenderCtx) (opts : option JsObj),
          call_hook (new_hook m forwarding_fetcher None) ctx opts
          = match m with
            | CustomerExtendHook =>
                ReadResult
                  {| sub_key := (Customer.defaultOpts, []);
                     sub_fetch :=
                       forwarding_fetcher Customer.defaultOpts (JObj ∅) (ctx_fetch ctx);
                     sub_options :=
                       spread_opt {[ "revalidateOnFocus" := JBool false ]} None |}
            | WishlistExtendHook =>
                ActionResult
                  (Wishlist.addItem (ctx_customer ctx) (ctx_wishlist_revalidate ctx opts)
                     (λ input,
                        forwarding_fetcher Wishlist.defaultOpts input (ctx_fetch ctx)))
            end.
Proof.
  assert (call_extend 0 (answering_fetcher "f1") None sample_realm
          = Some (fst (Customer.extendHook (answering_fetcher "f1") None sample_realm), 1))
    as H by reflexivity.
  split; [exact H|].
  exact (extend_twice_binds_last_fetcher_only 0 (answering_fetcher "f1")
           forwarding_fetcher None None sample_realm _ 1 H).
Defined.

Lemma lookup_spread_opt (a : JsObj) (b : option JsObj) (k : string) :
  spread_opt a b !! k
  = match option_of b k with Some v => Some v | None => a !! k end.
Proof. destruct b as [b|]; simpl; [apply lookup_spread|reflexivity]. Qed.

(** C6, counterexample. A customer hook extended with
    [{ revalidateOnFocus: true }] is bound to that option; extending it
    again with no options gives a hook bound to
    [{ revalidateOnFocus: false }]: the option of the hook being extended
    is not kept. *)
Lemma extend_drops_bound_options :
  ∃ H1 H2 : FnObj,
    extended_once (answering_fetcher "f1") (Some {[ "revalidateOnFocus" := JBool true ]})
    = Some H1
    ∧ extended_twice (answering_fetcher "f1") forwarding_fetcher
        (Some {[ "revalidateOnFocus" := JBool true ]}) None = Some H2
    ∧ bound_options H1 (sample_ctx JNull JNull)
      = Some {[ "revalidateOnFocus" := JBool true ]}
    ∧ bound_options H2 (sample_ctx JNull JNull)
      = Some {[ "revalidateOnFocus" := JBool false ]}
    ∧ bound_options H2 (sample_ctx JNull JNull)
      ≠ (λ bound, spread_opt bound None) <$> bound_options H1 (sample_ctx JNull JNull).
Proof.
  eexists _, _. repeat (split; [reflexivity|]).
  simpl. discriminate.
Qed.

(** C6, as the code has it. The cache-policy options of the customer hook
    [.extend(customFetcher, swrOptions)] builds are the shallow merge of
    [swrOptions] into [{ revalidateOnFocus: false }]: an option given in
    [swrOptions] has the given value, every other option is as in
    [{ revalidateOnFocus: false }], whatever the hook extended was bound
    to. *)
Theorem extend_merges_options_into_module_defaults :
  ∀ (h : nat) (H : FnObj) (customFetcher : HookFetcher)
    (swrOptions : option JsObj) (r : Realm),
    heap r !! h = Some H → fn_extend H = Some CustomerExtendHook →
    ∃ (r' : Realm) (h' : nat) (H' : FnObj),
      call_extend h customFetcher swrOptions r = Some (r', h')
      ∧ heap r' !! h' = Some H'
      ∧ ∀ ctx : RenderCtx,
          ∃ bound : JsObj,
            bound_options H' ctx = Some bound
            ∧ (∀ (k : string) (v : JsVal),
                 option_of swrOptions k = Some v → bound !! k = Some v)
            ∧ (∀ k : string,
                 option_of swrOptions k = None →
                 bound !! k = ({[ "revalidateOnFocus" := JBool false ]} : JsObj) !! k).
Proof.
  intros h H f o r Hh Hm.
  eexists _, _, (new_hook CustomerExtendHook f o).
  split; [exact (call_extend_eq h H _ f o r Hh Hm)|].
  split; [apply lookup_insert_eq|].
  intros ctx. exists (spread_opt {[ "revalidateOnFocus" := JBool false ]} o).
  split; [reflexivity|].
  split; [intros k v Hk | intros k Hk]; by rewrite lookup_spread_opt, Hk.
Qed.

Lemma extend_merges_options_into_module_defaults_witness :
  heap sample_realm !! 0 = Some (new_hook CustomerExtendHook Customer.fetcher None)
  ∧ fn_extend (new_hook CustomerExtendHook Customer.fetcher None)
    = Some CustomerExtendHook
  ∧ ∃ (r' : Realm) (h' : nat) (H' : FnObj),
      call_extend 0 forwarding_fetcher (Some {[ "dedupingInterval" := JNum 2000 ]})
        sample_realm = Some (r', h')
      ∧ heap r' !! h' = Some H'
      ∧ ∀ ctx : RenderCtx,
          ∃ bound : JsObj,
            bound_options H' ctx = Some bound
            ∧ (∀ (k : string) (v : JsVal),
                 option_of (Some {[ "dedupingInterval" := JNum 2000 ]}) k = Some v →
                 bound !! k = Some v)
            ∧ (∀ k : string,
                 option_of (Some {[ "dedupingInterval" := JNum 2000 ]}) k = None →
                 bound !! k = ({[ "revalidateOnFocus" := JBool false ]} : JsObj) !! k).
Proof.
  assert (heap sample_realm !! 0
          = Some (new_hook CustomerExtendHook Customer.fetcher None)) as Hh
    by reflexivity.
  split; [exact Hh|]. split; [reflexivity|].
  exact (extend_merges_options_into_module_defaults 0 _ forwarding_fetcher
           (Some {[ "dedupingInterval" := JNum 2000 ]}) sample_realm Hh eq_refl).
Defined.

(** C8, counterexample. The customer hook [H1] extended with a fetcher
    that answers by itself, extended again with the fetcher that forwards
    to the default fetcher and no options: [H1] answers by itself, the new
    hook calls the transport. *)
Lemma extend_identity_differs_from_extended_hook :
  ∃ H1 H2 : FnObj,
    extended_once (answering_fetcher "f1") None = Some H1
    ∧ extended_twice (answering_fetcher "f1")
        (λ options input fetch, Customer.fetcher options input fetch) None None
      = Some H2
    ∧ run_read H1 (sample_ctx JNull JNull) = Some ([Custom "f1"], inr (JStr "f1"))
    ∧ run_read H2 (sample_ctx JNull JNull)
      = Some ([Transport Customer.defaultOpts; Suspend], inr JNull)
    ∧ ¬ same_behaviour (call_hook H2 (sample_ctx JNull JNull) None)
          (call_hook H1 (sample_ctx JNull JNull) None).
Proof.
  eexists _, _. repeat (split; [reflexivity|]).
  intros (_ & _ & Hf). specialize (Hf []). simpl in Hf.
  apply (f_equal snd) in Hf. discriminate.
Qed.

(** C8, as the code has it. [.extend] with a fetcher that forwards its
    arguments to the module's default fetcher, and no options, builds a
    hook that behaves as the module's default hook; so it behaves as the
    hook extended when that one is bound to the default fetcher and no
    options. *)
Theorem extend_identity_is_default_hook :
  ∀ (h : nat) (H : FnObj) (m : ModuleFn) (identity : HookFetcher) (r : Realm),
    heap r !! h = Some H → fn_extend H = Some m →
    forwards_to identity (module_fetcher m) →
    ∃ (r' : Realm) (h' : nat) (H' : FnObj),
      call_extend h identity None r = Some (r', h')
      ∧ heap r' !! h' = Some H'
      ∧ (∀ (ctx : RenderCtx) (opts : option JsObj),
           same_behaviour (call_hook H' ctx opts)
             (call_hook (new_hook m (module_fetcher m) None) ctx opts))
      ∧ (H = new_hook m (module_fetcher m) None →
         ∀ (ctx : RenderCtx) (opts : option JsObj),
           same_behaviour (call_hook H' ctx opts) (call_hook H ctx opts)).
Proof.
  intros h H m idf r Hh Hm Hid.
  assert (∀ ctx opts,
            same_behaviour (call_hook (new_hook m idf None) ctx opts)
              (call_hook (new_hook m (module_fetcher m) None) ctx opts)) as Hsame.
  { intros ctx opts. destruct m; simpl.
    - repeat split. intros n. apply Hid.
    - intros input n. unfold Wishlist.useAddItem, Wishlist.addItem.
      destruct (negb (truthy (ctx_customer ctx))); [reflexivity|].
      unfold mbind, Async_bind, bind, await, useWishlistAddItem.
      by rewrite Hid. }
  eexists _, _, (new_hook m idf None).
  split; [exact (call_extend_eq h H m idf None r Hh Hm)|].
  split; [apply lookup_insert_eq|].
  split; [exact Hsame|]. intros ->. exact Hsame.
Qed.

Lemma extend_identity_is_default_hook_witness :
  heap sample_realm !! 0 = Some (new_hook CustomerExtendHook Customer.fetcher None)
  ∧ fn_extend (new_hook CustomerExtendHook Customer.fetcher None)
    = Some CustomerExtendHook
  ∧ forwards_to (λ options input fetch, Customer.fetcher options input fetch)
      (module_fetcher CustomerExtendHook)
  ∧ ∃ (r' : Realm) (h' : nat) (H' : FnObj),
      call_extend 0 (λ options input fetch, Customer.fetcher options input fetch)
        None sample_realm = Some (r', h')
      ∧ heap r' !! h' = Some H'
      ∧ (∀ (ctx : RenderCtx) (opts : option JsObj),
           same_behaviour (call_hook H' ctx opts)
             (call_hook (new_hook CustomerExtendHook
                           (module_fetcher CustomerExtendHook) None) ctx opts))
      ∧ (new_hook CustomerExtendHook Customer.fetcher None
         = new_hook CustomerExtendHook (module_fetcher CustomerExtendHook) None →
         ∀ (ctx : RenderCtx) (opts : option JsObj),
           same_behaviour (call_hook H' ctx opts)
             (call_hook (new_hook CustomerExtendHook Customer.fetcher None) ctx opts)).
Proof.
  assert (heap sample_realm !! 0
          = Some (new_hook CustomerExtendHook Customer.fetcher None)) as Hh
    by reflexivity.
  assert (forwards_to (λ options input fetch, Customer.fetcher options input fetch)
            (module_fetcher CustomerExtendHook)) as Hid
    by (intros options input fetch n; reflexivity).
  split; [exact Hh|]. split; [reflexivity|]. split; [exact Hid|].
  exact (extend_identity_is_default_hook 0 _ CustomerExtendHook _ sample_realm
           Hh eq_refl Hid).
Defined.

(** ** The resource cache: one fetch in flight per key *)

Section CacheFacts.

Import ResourceCache.

Lemma count_app k l1 l2 : count k (l1 ++ l2) = count k l1 + count k l2.
Proof. unfold count. by rewrite filter_app, length_app. Qed.

Lemma count_cons k x l :
  count k (x :: l) = (if decide (x = k) then 1 else 0) + count k l.
Proof. unfold count. rewrite filter_cons. by destruct (decide (x = k)). Qed.

Lemma count_singleton k x : count k [x] = if decide (x = k) then 1 else 0.
Proof. rewrite count_cons. unfold count. simpl. lia. Qed.

Lemma count_remove_first k x l :
  count k (remove_first x l)
  = if decide (k = x) then pred (count k l) else count k l.
Proof.
  induction l as [|y l IH]; simpl.
  - by destruct (decide (k = x)).
  - destruct (decide (y = x)) as [->|Hyx].
    + rewrite count_cons. destruct (decide (k = x)) as [->|Hkx].
      * rewrite decide_True by done. simpl. lia.
      * rewrite decide_False by done. simpl. lia.
    + rewrite !count_cons, IH. destruct (decide (k = x)) as [->|Hkx].
      * rewrite decide_False by done. simpl. lia.
      * lia.
Qed.

Lemma count_elem_of k l : k ∈ l → 0 < count k l.
Proof.
  induction 1 as [x l|x y l _ IH]; rewrite count_cons.
  - rewrite decide_True by done. lia.
  - lia.
Qed.

Lemma coherent_empty : coherent empty_cache.
Proof. intros k. reflexivity. Qed.

Lemma is_loading_loading d err subs :
  is_loading {| data := d; error := err; status := loading; subscribers := subs |}
  = true.
Proof. reflexivity. Qed.

Lemma is_loading_status d err e subs :
  is_loading {| data := d; error := err; status := status e; subscribers := subs |}
  = is_loading e.
Proof. reflexivity. Qed.

Variable stale : CacheEntry → bool.

Lemma subscribe_coherent key c : coherent c → coherent (subscribe stale key c).1.
Proof.
  intros Hc k. pose proof (Hc k) as Hk. pose proof (Hc key) as Hkey.
  unfold subscribe.
  destruct (entries c !! key) as [e|] eqn:He.
  - destruct (is_loading e) eqn:Hl; [|destruct (stale e)]; simpl;
      rewrite ?count_app, ?count_singleton, lookup_insert;
      destruct (decide (key = k)) as [->|Hne]; simpl;
      rewrite ?He, ?Hl in *;
      rewrite ?is_loading_loading, ?is_loading_status, ?Hl; lia.
  - simpl. rewrite count_app, count_singleton, lookup_insert.
    destruct (decide (key = k)) as [->|Hne]; simpl; rewrite ?He in *; lia.
Qed.

Lemma unsubscribe_coherent key token c :
  coherent c → coherent (unsubscribe key token c).
Proof.
  intros Hc k. pose proof (Hc k) as Hk. unfold unsubscribe.
  destruct (entries c !! key) as [e|] eqn:He; [|done]. simpl.
  rewrite lookup_insert. destruct (decide (key = k)) as [->|Hne]; [|done].
  by rewrite He in Hk.
Qed.

Lemma settle_coherent key outcome c : coherent c → coherent (settle key outcome c).
Proof.
  intros Hc k. pose proof (Hc k) as Hk. pose proof (Hc key) as Hkey.
  unfold settle. destruct (decide (key ∈ in_flight c)) as [Hin|Hin]; [|done].
  apply count_elem_of in Hin.
  destruct (entries c !! key) as [e|] eqn:He; [|lia]. simpl.
  rewrite count_remove_first, lookup_insert.
  destruct (decide (key = k)) as [->|Hne].
  - rewrite decide_True by done. rewrite Hkey.
    destruct (is_loading e); [|lia]. by destruct outcome.
  - by rewrite decide_False by done.
Qed.

Lemma evict_coherent key c : coherent c → coherent (evict key c).
Proof.
  intros Hc k. pose proof (Hc k) as Hk. unfold evict.
  destruct (entries c !! key) as [e|] eqn:He; [|done].
  destruct (Nat.eqb (subscriberCount e) 0 && negb (is_loading e)) eqn:Hg; [|done].
  simpl. rewrite lookup_delete. destruct (decide (key = k)) as [->|Hne]; [|done].
  rewrite He in Hk. apply andb_true_iff in Hg as [_ Hg].
  by destruct (is_loading e).
Qed.

Lemma step_coherent op c : coherent c → coherent (step stale op c).
Proof.
  destruct op; simpl;
    auto using subscribe_coherent, unsubscribe_coherent, settle_coherent,
      evict_coherent.
Qed.

Lemma run_coherent ops c : coherent c → coherent (run stale ops c).
Proof.
  revert c. induction ops as [|op ops IH]; intros c Hc; [done|].
  apply IH, step_coherent, Hc.
Qed.

Lemma coherent_at_most_one c k : coherent c → (count k (in_flight c) ≤ 1)%nat.
Proof.
  intros Hc. rewrite (Hc k).
  destruct (entries c !! k) as [e|]; [destruct (is_loading e)|]; lia.
Qed.

Lemma count_positive_elem_of k l : 0 < count k l → k ∈ l.
Proof.
  induction l as [|x l IH]; [unfold count; simpl; lia|].
  rewrite count_cons. destruct (decide (x = k)) as [->|Hne].
  - intros _. left.
  - intros Hpos. right. apply IH. lia.
Qed.

Lemma lease_tokens_app k l1 l2 :
  lease_tokens k (l1 ++ l2) = lease_tokens k l1 ++ lease_tokens k l2.
Proof. unfold lease_tokens. by rewrite filter_app, fmap_app. Qed.

Lemma lease_tokens_cons k k' t l :
  lease_tokens k ((k', t) :: l)
  = (if decide (k' = k) then [t] else []) ++ lease_tokens k l.
Proof.
  unfold lease_tokens. rewrite filter_cons. simpl.
  by destruct (decide (k' = k)).
Qed.

(** An operation on another key leaves the entry of [K], the transport
    calls issued for [K] and the leases on [K] as they are. *)
Lemma step_other_key K op c :
  op_key op ≠ K →
  entries (step stale op c) !! K = entries c !! K
  ∧ count K (issued (step stale op c)) = count K (issued c)
  ∧ ∃ new, leases (step stale op c) = leases c ++ new ∧ lease_tokens K new = [].
Proof.
  intros Hne. destruct op as [k|k t|k o|k]; simpl in Hne |- *.
  - unfold subscribe.
    destruct (entries c !! k) as [e|];
      [destruct (is_loading e); [|destruct (stale e)]|]; simpl;
      rewrite lookup_insert_ne by done;
      rewrite ?count_app, ?count_singleton, ?decide_False by done;
      (split; [done|]); (split; [lia|]);
      exists [(k, next_token c)]; (split; [done|]);
      by rewrite lease_tokens_cons, decide_False.
  - unfold unsubscribe. destruct (entries c !! k) as [e|]; simpl;
      rewrite ?lookup_insert_ne by done;
      (split; [done|]); (split; [done|]); exists []; by rewrite app_nil_r.
  - unfold settle. destruct (decide (k ∈ in_flight c)) as [Hin|Hin];
      [destruct (entries c !! k) as [e|]|]; simpl;
      rewrite ?lookup_insert_ne by done;
      (split; [done|]); (split; [done|]); exists []; by rewrite app_nil_r.
  - unfold evict. destruct (entries c !! k) as [e|];
      [destruct (Nat.eqb (subscriberCount e) 0 && negb (is_loading e))|]; simpl;
      rewrite ?lookup_delete_ne by done;
      (split; [done|]); (split; [done|]); exists []; by rewrite app_nil_r.
Qed.

Lemma only_subscribes_cons K op ops :
  only_subscribes K (op :: ops) = true →
  (is_subscribe K op = true ∧ op = Subscribe K
   ∨ is_subscribe K op = false ∧ op_key op ≠ K)
  ∧ only_subscribes K ops = true.
Proof.
  unfold only_subscribes. simpl. intros [Hop Hops]%andb_true_iff.
  split; [|done].
  destruct (is_subscribe K op) eqn:Hs.
  - left. split; [done|]. destruct op; try discriminate.
    simpl in Hs. by apply bool_decide_eq_true in Hs as ->.
  - right. split; [done|]. simpl in Hop.
    apply negb_true_iff, bool_decide_eq_false in Hop. done.
Qed.

Lemma subscribes_cons K op ops :
  subscribes K (op :: ops)
  = (if is_subscribe K op then 1 else 0) + subscribes K ops.
Proof.
  unfold subscribes. rewrite filter_cons.
  destruct (decide (is_subscribe K op = true)) as [->|Hn]; [done|].
  apply not_true_is_false in Hn. by rewrite Hn.
Qed.

Lemma subscribe_enqueued K c e :
  entries c !! K = Some e → is_loading e = true →
  (subscribe stale K c).1
  = {| entries := <[K := {| data := data e; error := error e; status := loading;
                            subscribers := subscribers e ++ [next_token c] |}]>
                    (entries c);
       next_token := S (next_token c);
       issued := issued c;
       in_flight := in_flight c;
       leases := leases c ++ [(K, next_token c)];
       delivered := delivered c |}.
Proof. intros He Hl. unfold subscribe. by rewrite He, Hl. Qed.

Lemma subscribe_first K c :
  entries c !! K = None →
  (subscribe stale K c).1
  = {| entries := <[K := {| data := None; error := None; status := loading;
                            subscribers := [next_token c] |}]> (entries c);
       next_token := S (next_token c);
       issued := issued c ++ [K];
       in_flight := in_flight c ++ [K];
       leases := leases c ++ [(K, next_token c)];
       delivered := delivered c |}.
Proof. intros He. unfold subscribe. by rewrite He. Qed.

Lemma run_cons op ops c : run stale (op :: ops) c = run stale ops (step stale op c).
Proof. reflexivity. Qed.

(** While the fetch for [K] is in flight, further subscriptions to [K]
    are enqueued on the entry and no transport call is issued for [K]. *)
Lemma run_enqueues K ops : ∀ c e,
  only_subscribes K ops = true →
  entries c !! K = Some e → is_loading e = true →
  ∃ e' new,
    entries (run stale ops c) !! K = Some e'
    ∧ is_loading e' = true
    ∧ count K (issued (run stale ops c)) = count K (issued c)
    ∧ leases (run stale ops c) = leases c ++ new
    ∧ subscribers e' = subscribers e ++ lease_tokens K new
    ∧ length (lease_tokens K new) = subscribes K ops.
Proof.
  induction ops as [|op ops IH]; intros c e Hall He Hl.
  - exists e, []. simpl. by rewrite !app_nil_r.
  - rewrite run_cons.
    apply only_subscribes_cons in Hall as [[[Hs ->]|[Hs Hne]] Hall];
      rewrite subscribes_cons, Hs.
    + simpl step. rewrite (subscribe_enqueued K c e He Hl).
      match goal with
      | |- context [run stale ops ?c1] =>
          destruct (IH c1 {| data := data e; error := error e; status := loading;
                             subscribers := subscribers e ++ [next_token c] |})
            as (e' & new & He' & Hl' & Hi & Hle & Hsub & Hlen);
            [exact Hall|apply lookup_insert_eq|reflexivity|]
      end.
      simpl in Hi, Hle, Hsub.
      exists e', ((K, next_token c) :: new).
      rewrite lease_tokens_cons, decide_True by done.
      split; [exact He'|]. split; [exact Hl'|]. split; [exact Hi|].
      split; [by rewrite Hle, <- app_assoc|].
      split; [by rewrite Hsub, <- app_assoc|].
      simpl. by rewrite Hlen.
    + destruct (step_other_key K op c Hne) as (Hent & Hiss & new0 & Hle0 & Htok0).
      destruct (IH (step stale op c) e) as (e' & new & He' & Hl' & Hi & Hle & Hsub & Hlen);
        [done|by rewrite Hent|done|].
      exists e', (new0 ++ new).
      rewrite lease_tokens_app, Htok0.
      split; [exact He'|]. split; [exact Hl'|]. split; [lia|].
      split; [by rewrite Hle, Hle0, <- app_assoc|].
      split; [exact Hsub|]. exact Hlen.
Qed.

(** The first subscription to a key without entry issues the one
    transport call; all later ones are enqueued. *)
Lemma run_first_fetch K ops : ∀ c,
  only_subscribes K ops = true →
  entries c !! K = None → 0 < subscribes K ops →
  ∃ e' new,
    entries (run stale ops c) !! K = Some e'
    ∧ is_loading e' = true
    ∧ count K (issued (run stale ops c)) = S (count K (issued c))
    ∧ leases (run stale ops c) = leases c ++ new
    ∧ subscribers e' = lease_tokens K new
    ∧ length (subscribers e') = subscribes K ops.
Proof.
  induction ops as [|op ops IH]; intros c Hall He Hpos.
  - unfold subscribes in Hpos. simpl in Hpos. lia.
  - rewrite run_cons.
    apply only_subscribes_cons in Hall as [[[Hs ->]|[Hs Hne]] Hall];
      rewrite subscribes_cons, Hs in *.
    + simpl step. rewrite (subscribe_first K c He).
      match goal with
      | |- context [run stale ops ?c1] =>
          destruct (run_enqueues K ops c1
                      {| data := None; error := None; status := loading;
                         subscribers := [next_token c] |})
            as (e' & new & He' & Hl' & Hi & Hle & Hsub & Hlen);
            [exact Hall|apply lookup_insert_eq|reflexivity|]
      end.
      simpl in Hi, Hle, Hsub.
      exists e', ((K, next_token c) :: new).
      rewrite lease_tokens_cons, decide_True by done.
      split; [exact He'|]. split; [exact Hl'|].
      split; [rewrite Hi, count_app, count_singleton, decide_True by done; lia|].
      split; [by rewrite Hle, <- app_assoc|].
      split; [exact Hsub|].
      rewrite Hsub. simpl. by rewrite Hlen.
    + destruct (step_other_key K op c Hne) as (Hent & Hiss & new0 & Hle0 & Htok0).
      destruct (IH (step stale op c)) as (e' & new & He' & Hl' & Hi & Hle & Hsub & Hlen);
        [done|by rewrite Hent|lia|].
      exists e', (new0 ++ new).
      rewrite lease_tokens_app, Htok0.
      split; [exact He'|]. split; [exact Hl'|]. split; [lia|].
      split; [by rewrite Hle, Hle0, <- app_assoc|].
      split; [exact Hsub|]. exact Hlen.
Qed.

(** The fetch in flight settles: every subscriber of the entry receives
    the outcome. *)
Lemma settle_delivers K outcome c e :
  coherent c → entries c !! K = Some e → is_loading e = true →
  delivered (settle K outcome c)
  = delivered c ++ map (λ t, (t, outcome)) (subscribers e).
Proof.
  intros Hc He Hl. unfold settle.
  rewrite decide_True.
  - by rewrite He.
  - apply count_positive_elem_of. rewrite (Hc K), He, Hl. lia.
Qed.

End CacheFacts.

(** C3. From a cache in which the calls in flight are those of the loading
    entries, no trace of operations puts two transport calls in flight for
    one key. When the key [K] has no entry and the operations on [K] in a
    trace are subscriptions, at least one, possibly interleaved with
    operations on other keys, then exactly one transport call is issued
    for [K], it is the one in flight, every one of those subscriptions is
    a subscriber of the entry, and when the call settles each of them
    receives its outcome. *)
Theorem concurrent_subscribes_one_transport_call :
  ∀ (stale : ResourceCache.CacheEntry → bool) (K : string)
    (ops : list ResourceCache.Op) (c : ResourceCache.Cache)
    (outcome : CommerceError + JsVal),
    ResourceCache.coherent c →
    ResourceCache.entries c !! K = None →
    ResourceCache.only_subscribes K ops = true →
    0 < ResourceCache.subscribes K ops →
    (∀ (trace : list ResourceCache.Op) (k : string),
       (ResourceCache.count k
          (ResourceCache.in_flight (ResourceCache.run stale trace c)) ≤ 1)%nat)
    ∧ ResourceCache.count K (ResourceCache.in_flight (ResourceCache.run stale ops c)) = 1
    ∧ ResourceCache.count K (ResourceCache.issued (ResourceCache.run stale ops c))
      = S (ResourceCache.count K (ResourceCache.issued c))
    ∧ ∃ (e : ResourceCache.CacheEntry) (new : list (string * nat)),
        ResourceCache.entries (ResourceCache.run stale ops c) !! K = Some e
        ∧ ResourceCache.leases (ResourceCache.run stale ops c)
          = ResourceCache.leases c ++ new
        ∧ ResourceCache.subscribers e = ResourceCache.lease_tokens K new
        ∧ length (ResourceCache.subscribers e) = ResourceCache.subscribes K ops
        ∧ ResourceCache.delivered
            (ResourceCache.settle K outcome (ResourceCache.run stale ops c))
          = ResourceCache.delivered (ResourceCache.run stale ops c)
            ++ map (λ t, (t, outcome)) (ResourceCache.subscribers e).
Proof.
  intros stale K ops c outcome Hc He Hall Hpos.
  pose proof (run_coherent stale ops c Hc) as Hc'.
  destruct (run_first_fetch stale K ops c Hall He Hpos)
    as (e & new & He' & Hl & Hi & Hle & Hsub & Hlen).
  split; [|split; [|split]].
  - intros trace k. apply coherent_at_most_one, run_coherent, Hc.
  - by rewrite (Hc' K), He', Hl.
  - exact Hi.
  - exists e, new. repeat (split; [done|]).
    by apply settle_delivers.
Qed.

Example sample_trace_runs :
  let c := ResourceCache.run (λ _, false) sample_trace ResourceCache.empty_cache in
  (ResourceCache.issued c, ResourceCache.in_flight c,
   ResourceCache.delivered (ResourceCache.settle "customer" (inr JNull) c))
  = (["customer"; "wishlist"], ["customer"; "wishlist"],
     [(0, inr JNull); (2, inr JNull); (3, inr JNull)]).
Proof. reflexivity. Qed.


Lemma concurrent_subscribes_one_transport_call_witness :
  ResourceCache.coherent ResourceCache.empty_cache
  ∧ ResourceCache.entries ResourceCache.empty_cache !! "customer" = None
  ∧ ResourceCache.only_subscribes "customer" sample_trace = true
  ∧ 0 < ResourceCache.subscribes "customer" sample_trace
  ∧ (∀ (trace : list ResourceCache.Op) (k : string),
       (ResourceCache.count k
          (ResourceCache.in_flight
             (ResourceCache.run (λ _, false) trace ResourceCache.empty_cache)) ≤ 1)%nat)
  ∧ ResourceCache.count "customer"
      (ResourceCache.in_flight
         (ResourceCache.run (λ _, false) sample_trace ResourceCache.empty_cache)) = 1
  ∧ ResourceCache.count "customer"
      (ResourceCache.issued
         (ResourceCache.run (λ _, false) sample_trace ResourceCache.empty_cache))
    = S (ResourceCache.count "customer" (ResourceCache.issued ResourceCache.empty_cache))
  ∧ ∃ (e : ResourceCache.CacheEntry) (new : list (string * nat)),
      ResourceCache.entries
        (ResourceCache.run (λ _, false) sample_trace ResourceCache.empty_cache)
        !! "customer" = Some e
      ∧ ResourceCache.leases
          (ResourceCache.run (λ _, false) sample_trace ResourceCache.empty_cache)
        = ResourceCache.leases ResourceCache.empty_cache ++ new
      ∧ ResourceCache.subscribers e = ResourceCache.lease_tokens "customer" new
      ∧ length (ResourceCache.subscribers e)
        = ResourceCache.subscribes "customer" sample_trace
      ∧ ResourceCache.delivered
          (ResourceCache.settle "customer" (inr JNull)
             (ResourceCache.run (λ _, false) sample_trace ResourceCache.empty_cache))
        = ResourceCache.delivered
            (ResourceCache.run (λ _, false) sample_trace ResourceCache.empty_cache)
          ++ map (λ t, (t, inr JNull)) (ResourceCache.subscribers e).
Proof.
  assert (0 < ResourceCache.subscribes "customer" sample_trace) as Hpos
    by (vm_compute; lia).
  split; [exact coherent_empty|]. split; [reflexivity|].
  split; [reflexivity|]. split; [exact Hpos|].
  exact (concurrent_subscribes_one_transport_call (λ _, false) "customer"
           sample_trace ResourceCache.empty_cache (inr JNull)
           coherent_empty eq_refl eq_refl Hpos).
Defined.

(** * Further properties of the hooks *)

(** ** [addItem]: failures *)

(** X1. With a signed customer, when the call of the fetcher ends in an
    error, [addItem] rejects with the same error; what the fetcher had done
    to the outside world stays in the log, and the outcome is the same for
    every revalidation function: the revalidation is not started. *)
Theorem addItem_fetcher_error_skips_revalidation :
  ∀ (customFetcher : HookFetcher) (fetch : Fetch) (customer : JsVal)
    (revalidate : option JsObj → Async JsVal) (opts : option JsObj)
    (input : JsVal) (n n1 : list Event) (e : Thrown),
    truthy customer = true →
    customFetcher Wishlist.defaultOpts (JObj {[ "item" := input ]}) fetch n = (n1, inl e) →
    snd (Wishlist.useAddItem customFetcher
           {| ctx_fetch := fetch; ctx_customer := customer;
              ctx_wishlist_revalidate := revalidate |} opts input n) = inl e
    ∧ n1 `prefix_of`
        fst (Wishlist.useAddItem customFetcher
               {| ctx_fetch := fetch; ctx_customer := customer;
                  ctx_wishlist_revalidate := revalidate |} opts input n)
    ∧ ∀ revalidate' : option JsObj → Async JsVal,
        Wishlist.useAddItem customFetcher
          {| ctx_fetch := fetch; ctx_customer := customer;
             ctx_wishlist_revalidate := revalidate' |} opts input n
        = Wishlist.useAddItem customFetcher
            {| ctx_fetch := fetch; ctx_customer := customer;
               ctx_wishlist_revalidate := revalidate |} opts input n.
Proof.
  intros cf fetch customer revalidate opts input n n1 e Hc Hf.
  assert (∀ rv : option JsObj → Async JsVal,
            Wishlist.useAddItem cf
              {| ctx_fetch := fetch; ctx_customer := customer;
                 ctx_wishlist_revalidate := rv |} opts input n
            = (n1 ++ [Suspend], inl e)) as Hrun.
  { intros rv. rewrite addItem_unfold_signed by exact Hc.
    unfold useWishlistAddItem. simpl. by rewrite Hf. }
  rewrite !Hrun. simpl. split; [reflexivity|]. split.
  - by apply prefix_app_r.
  - intros rv. apply Hrun.
Qed.

Lemma addItem_fetcher_error_skips_revalidation_witness :
  truthy sample_customer = true
  ∧ Wishlist.fetcher Wishlist.defaultOpts (JObj {[ "item" := sample_item ]})
      (transport (λ _, inl (ThrowValue (JStr "offline")))) []
    = ([Transport (<["body" := JObj {[ "item" := sample_item ]}]> Wishlist.defaultOpts)],
       inl (ThrowValue (JStr "offline")))
  ∧ snd (Wishlist.useAddItem Wishlist.fetcher
           {| ctx_fetch := transport (λ _, inl (ThrowValue (JStr "offline")));
              ctx_customer := sample_customer;
              ctx_wishlist_revalidate := failing_revalidate |} None sample_item [])
    = inl (ThrowValue (JStr "offline"))
  ∧ [Transport (<["body" := JObj {[ "item" := sample_item ]}]> Wishlist.defaultOpts)]
      `prefix_of`
      fst (Wishlist.useAddItem Wishlist.fetcher
             {| ctx_fetch := transport (λ _, inl (ThrowValue (JStr "offline")));
                ctx_customer := sample_customer;
                ctx_wishlist_revalidate := failing_revalidate |} None sample_item [])
  ∧ ∀ revalidate' : option JsObj → Async JsVal,
      Wishlist.useAddItem Wishlist.fetcher
        {| ctx_fetch := transport (λ _, inl (ThrowValue (JStr "offline")));
           ctx_customer := sample_customer;
           ctx_wishlist_revalidate := revalidate' |} None sample_item []
      = Wishlist.useAddItem Wishlist.fetcher
          {| ctx_fetch := transport (λ _, inl (ThrowValue (JStr "offline")));
             ctx_customer := sample_customer;
             ctx_wishlist_revalidate := failing_revalidate |} None sample_item [].
Proof.
  assert (Wishlist.fetcher Wishlist.defaultOpts (JObj {[ "item" := sample_item ]})
            (transport (λ _, inl (ThrowValue (JStr "offline")))) []
          = ([Transport (<["body" := JObj {[ "item" := sample_item ]}]> Wishlist.defaultOpts)],
             inl (ThrowValue (JStr "offline")))) as Hf by reflexivity.
  split; [reflexivity|]. split; [exact Hf|].
  exact (addItem_fetcher_error_skips_revalidation Wishlist.fetcher _ sample_customer
           failing_revalidate None sample_item [] _ _ eq_refl Hf).
Defined.

(** X2. With a signed customer, when the fetcher's promise resolves and the
    call of the revalidation then ends in an error, [addItem] rejects with
    that error: the data the fetcher resolved with is not returned,
    although what the fetcher and the revalidation did to the outside
    world stays in the log. *)
Theorem addItem_revalidation_error_rejects :
  ∀ (customFetcher : HookFetcher) (fetch : Fetch) (customer : JsVal)
    (revalidate : option JsObj → Async JsVal) (opts : option JsObj)
    (input data : JsVal) (n n1 n2 : list Event) (e : Thrown),
    truthy customer = true →
    customFetcher Wishlist.defaultOpts (JObj {[ "item" := input ]}) fetch n
    = (n1, inr data) →
    revalidate opts (n1 ++ [Suspend]) = (n2, inl e) →
    snd (Wishlist.useAddItem customFetcher
           {| ctx_fetch := fetch; ctx_customer := customer;
              ctx_wishlist_revalidate := revalidate |} opts input n) = inl e
    ∧ n2 `prefix_of`
        fst (Wishlist.useAddItem customFetcher
               {| ctx_fetch := fetch; ctx_customer := customer;
                  ctx_wishlist_revalidate := revalidate |} opts input n).
Proof.
  intros cf fetch customer revalidate opts input data n n1 n2 e Hc Hf Hr.
  rewrite addItem_unfold_signed by exact Hc.
  unfold useWishlistAddItem. simpl. rewrite Hf, Hr. simpl.
  split; [reflexivity|]. by apply prefix_app_r.
Qed.

Lemma addItem_revalidation_error_rejects_witness :
  truthy sample_customer = true
  ∧ Wishlist.fetcher Wishlist.defaultOpts (JObj {[ "item" := sample_item ]})
      (transport (λ _, inr (JStr "wishlist"))) []
    = ([Transport (<["body" := JObj {[ "item" := sample_item ]}]> Wishlist.defaultOpts)],
       inr (JStr "wishlist"))
  ∧ failing_revalidate None
      ([Transport (<["body" := JObj {[ "item" := sample_item ]}]> Wishlist.defaultOpts)]
       ++ [Suspend])
    = ([Transport (<["body" := JObj {[ "item" := sample_item ]}]> Wishlist.defaultOpts);
        Suspend; Revalidate], inl (ThrowValue (JStr "offline")))
  ∧ snd (Wishlist.useAddItem Wishlist.fetcher
           {| ctx_fetch := transport (λ _, inr (JStr "wishlist"));
              ctx_customer := sample_customer;
              ctx_wishlist_revalidate := failing_revalidate |} None sample_item [])
    = inl (ThrowValue (JStr "offline"))
  ∧ [Transport (<["body" := JObj {[ "item" := sample_item ]}]> Wishlist.defaultOpts);
     Suspend; Revalidate]
      `prefix_of`
      fst (Wishlist.useAddItem Wishlist.fetcher
             {| ctx_fetch := transport (λ _, inr (JStr "wishlist"));
                ctx_customer := sample_customer;
                ctx_wishlist_revalidate := failing_revalidate |} None sample_item []).
Proof.
  assert (Wishlist.fetcher Wishlist.defaultOpts (JObj {[ "item" := sample_item ]})
            (transport (λ _, inr (JStr "wishlist"))) []
          = ([Transport (<["body" := JObj {[ "item" := sample_item ]}]> Wishlist.defaultOpts)],
             inr (JStr "wishlist"))) as Hf by reflexivity.
  assert (failing_revalidate None
            ([Transport (<["body" := JObj {[ "item" := sample_item ]}]> Wishlist.defaultOpts)]
             ++ [Suspend])
          = ([Transport (<["body" := JObj {[ "item" := sample_item ]}]> Wishlist.defaultOpts);
              Suspend; Revalidate], inl (ThrowValue (JStr "offline")))) as Hr
    by reflexivity.
  split; [reflexivity|]. split; [exact Hf|]. split; [exact Hr|].
  exact (addItem_revalidation_error_rejects Wishlist.fetcher _ sample_customer
           failing_revalidate None sample_item _ [] _ _ _ eq_refl Hf Hr).
Defined.

(** ** The default add-item hook, end to end *)



(** ** The default fetchers: edges *)

(** X4. The default wishlist fetcher throws a [TypeError] on a [null] or
    [undefined] input, whatever the fetch function is: the transport is
    not called. On every other input it returns the promise of the fetch
    function itself, called with the merged request spec and the body
    [{ item: input.item }], where [item] is [undefined] when the input has
    none. *)
Theorem wishlist_fetcher_input_edges :
  ∀ (options : JsObj) (input : JsVal) (fetch : Fetch) (n : list Event),
    (input = JNull ∨ input = JUndefined →
     Wishlist.fetcher options input fetch n = (n, inl ThrowTypeError))
    ∧ (input ≠ JNull → input ≠ JUndefined →
       Wishlist.fetcher options input fetch n
       = fetch (<["body" := JObj {[ "item" := optional_chain input "item" ]}]>
                  (spread Wishlist.defaultOpts options)) n).
Proof.
  intros options input fetch n. split.
  - intros [-> | ->]; reflexivity.
  - intros Hnull Hundef. destruct input; try reflexivity; congruence.
Qed.

Example wishlist_fetcher_undefined_input :
  Wishlist.fetcher ∅ JUndefined (transport (λ _, inr JNull)) []
  = ([], inl ThrowTypeError).
Proof. reflexivity. Qed.

Example wishlist_fetcher_input_without_item :
  fst (Wishlist.fetcher ∅ (JObj ∅) (transport (λ _, inr JNull)) [])
  = [Transport {[ "url" := JStr "/api/bigcommerce/wishlist"; "method" := JStr "POST";
                  "body" := JObj {[ "item" := JUndefined ]} ]}].
Proof. reflexivity. Qed.

(** X5. When the promise of the transport rejects, the default customer
    fetcher rejects with the same error: the transport has received the
    one merged request and the fetcher has suspended once. *)
Theorem customer_fetcher_propagates_transport_rejection :
  ∀ (options : JsObj) (input : JsVal) (server : JsObj → Thrown + JsVal)
    (n : list Event) (e : Thrown),
    server (spread Customer.defaultOpts options) = inl e →
    Customer.fetcher options input (transport server) n
    = (n ++ [Transport (spread Customer.defaultOpts options); Suspend], inl e).
Proof.
  intros options input server n e Hs.
  rewrite customer_fetcher_unfold. unfold transport. rewrite Hs.
  by rewrite <- app_assoc.
Qed.

Lemma customer_fetcher_propagates_transport_rejection_witness :
  (λ _ : JsObj, @inl Thrown JsVal (ThrowValue (JStr "offline")))
    (spread Customer.defaultOpts ∅) = inl (ThrowValue (JStr "offline"))
  ∧ Customer.fetcher ∅ JUndefined (transport (λ _, inl (ThrowValue (JStr "offline")))) []
    = ([] ++ [Transport (spread Customer.defaultOpts ∅); Suspend],
       inl (ThrowValue (JStr "offline"))).
Proof.
  split; [reflexivity|].
  exact (customer_fetcher_propagates_transport_rejection ∅ JUndefined
           (λ _, inl (ThrowValue (JStr "offline"))) [] _ eq_refl).
Defined.

(** X6. When the transport resolves with a body that is not an object (a
    string, a number, a boolean), or with an object whose [customer] is
    [null] or [undefined], the default customer fetcher resolves with
    [null]. *)
Theorem customer_fetcher_null_for_other_bodies :
  ∀ (options : JsObj) (input : JsVal) (fetch : Fetch) (n n1 : list Event)
    (data : JsVal),
    fetch (spread Customer.defaultOpts options) n = (n1, inr data) →
    (∀ o : JsObj, data = JObj o →
       o !! "customer" = Some JNull ∨ o !! "customer" = Some JUndefined) →
    Customer.fetcher options input fetch n = (n1 ++ [Suspend], inr JNull).
Proof.
  intros options input fetch n n1 data Hf Hd.
  rewrite customer_fetcher_unfold, Hf.
  destruct data as [| | b | z | s | o]; try reflexivity.
  destruct (Hd o eq_refl) as [Ho | Ho]; simpl; by rewrite Ho.
Qed.

Lemma customer_fetcher_null_for_other_bodies_witness :
  transport (λ _, inr (JStr "<html>")) (spread Customer.defaultOpts ∅) []
  = ([Transport Customer.defaultOpts], inr (JStr "<html>"))
  ∧ (∀ o : JsObj, JStr "<html>" = JObj o →
       o !! "customer" = Some JNull ∨ o !! "customer" = Some JUndefined)
  ∧ Customer.fetcher ∅ JUndefined (transport (λ _, inr (JStr "<html>"))) []
    = ([Transport Customer.defaultOpts] ++ [Suspend], inr JNull).
Proof.
  assert (transport (λ _, inr (JStr "<html>")) (spread Customer.defaultOpts ∅) []
          = ([Transport Customer.defaultOpts], inr (JStr "<html>"))) as Hf
    by reflexivity.
  assert (∀ o : JsObj, JStr "<html>" = JObj o →
            o !! "customer" = Some JNull ∨ o !! "customer" = Some JUndefined) as Hd
    by (intros o Ho; discriminate Ho).
  split; [exact Hf|]. split; [exact Hd|].
  exact (customer_fetcher_null_for_other_bodies ∅ JUndefined _ [] _ _ Hf Hd).
Defined.

(** ** Chains of [extend] *)

Lemma new_hook_extend m f o : fn_extend (new_hook m f o) = Some m.
Proof. by destruct m. Qed.

(** X8. A chain [h.extend(f1, o1).extend(f2, o2)...] of any length on a
    hook with the property goes through: it builds one hook per call, at
    pairwise distinct addresses that were unused before, the hook of the
    i-th call being the one [extendHook(fi, oi)] of the module of [h]
    builds; the log of the outside world and every function object that
    was there before are as they were. *)
Theorem extend_chain_builds_one_hook_per_call :
  ∀ (exts : list (HookFetcher * option JsObj)) (h : nat) (H : FnObj)
    (m : ModuleFn) (r : Realm),
    heap r !! h = Some H → fn_extend H = Some m →
    ∃ (r' : Realm) (hs : list nat),
      extend_chain h exts r = Some (r', hs)
      ∧ length hs = length exts
      ∧ NoDup hs
      ∧ net r' = net r
      ∧ (∀ l : nat, l ∈ hs → heap r !! l = None)
      ∧ (∀ (l : nat) (o : FnObj), heap r !! l = Some o → heap r' !! l = Some o)
      ∧ (∀ (i l : nat) (f : HookFetcher) (o : option JsObj),
           hs !! i = Some l → exts !! i = Some (f, o) →
           heap r' !! l = Some (new_hook m f o)).
Proof.
  induction exts as [|[f o] exts IH]; intros h H m r Hh Hm.
  - exists r, []. simpl. repeat split; try done.
    + constructor.
    + intros l Hl. by apply elem_of_nil in Hl.
  - pose proof (call_extend_eq h H m f o r Hh Hm) as Hcall.
    set (h1 := fresh (dom (heap r))) in *.
    set (r1 := {| heap := <[h1 := new_hook m f o]> (heap r); net := net r |}) in *.
    destruct (IH h1 (new_hook m f o) m r1) as
      (r2 & hs & Hchain & Hlen & Hnd & Hnet & Hnew & Hframe & Hith).
    { apply lookup_insert_eq. }
    { apply new_hook_extend. }
    assert (heap r !! h1 = None) as Hfresh by apply fresh_unused.
    assert (∀ l, l ∈ hs → l ≠ h1 ∧ heap r !! l = None) as Hhs.
    { intros l Hl. apply Hnew in Hl. simpl in Hl.
      apply lookup_insert_None in Hl as [Hl Hne]. by split. }
    exists r2, (h1 :: hs). simpl. rewrite Hcall. simpl. rewrite Hchain. simpl.
    split; [done|]. split; [by rewrite Hlen|].
    split.
    { constructor; [|done]. intros Hin. by destruct (Hhs h1 Hin). }
    split; [by rewrite Hnet|].
    split.
    { intros l [-> | Hl]%elem_of_cons; [done|]. by destruct (Hhs l Hl). }
    split.
    { intros l x Hl. apply Hframe. simpl. rewrite lookup_insert_ne; [done|].
      intros <-. congruence. }
    intros [|i] l f' o' Hl Hx; simpl in Hl, Hx.
    + injection Hl as <-. injection Hx as <- <-.
      apply Hframe. apply lookup_insert_eq.
    + by apply (Hith i).
Qed.

Lemma extend_chain_builds_one_hook_per_call_witness :
  heap sample_realm !! 0 = Some (new_hook CustomerExtendHook Customer.fetcher None)
  ∧ fn_extend (new_hook CustomerExtendHook Customer.fetcher None)
    = Some CustomerExtendHook
  ∧ ∃ (r' : Realm) (hs : list nat),
      extend_chain 0
        [(answering_fetcher "f1", None);
         (forwarding_fetcher, Some {[ "revalidateOnFocus" := JBool true ]});
         (Customer.fetcher, None)] sample_realm = Some (r', hs)
      ∧ length hs
        = length [(answering_fetcher "f1", None : option JsObj);
                  (forwarding_fetcher, Some {[ "revalidateOnFocus" := JBool true ]});
                  (Customer.fetcher, None)]
      ∧ NoDup hs
      ∧ net r' = net sample_realm
      ∧ (∀ l : nat, l ∈ hs → heap sample_realm !! l = None)
      ∧ (∀ (l : nat) (o : FnObj),
           heap sample_realm !! l = Some o → heap r' !! l = Some o)
      ∧ (∀ (i l : nat) (f : HookFetcher) (o : option JsObj),
           hs !! i = Some l →
           [(answering_fetcher "f1", None : option JsObj);
            (forwarding_fetcher, Some {[ "revalidateOnFocus" := JBool true ]});
            (Customer.fetcher, None)] !! i = Some (f, o) →
           heap r' !! l = Some (new_hook CustomerExtendHook f o)).
Proof.
  assert (heap sample_realm !! 0
          = Some (new_hook CustomerExtendHook Customer.fetcher None)) as Hh
    by reflexivity.
  split; [exact Hh|]. split; [reflexivity|].
  exact (extend_chain_builds_one_hook_per_call _ 0 _ CustomerExtendHook sample_realm
           Hh eq_refl).
Defined.

Example extend_chain_addresses :
  snd <$> extend_chain 0
            [(answering_fetcher "f1", None); (forwarding_fetcher, None);
             (Customer.fetcher, None)] sample_realm
  = Some [1; 2; 3].
Proof. reflexivity. Qed.

(** ** dns-cached-resolve *)

Lemma deliver_settled calls p :
  p ≠ DnsResolve.Pending → DnsResolve.deliver calls p = p.
Proof.
  revert p. induction calls as [|[err res] calls IH]; intros p Hp; [done|].
  unfold DnsResolve.deliver in *. simpl.
  assert (DnsResolve.callback err res p = p) as ->; [|by apply IH].
  unfold DnsResolve.callback. by destruct (truthy err), p.
Qed.

Lemma settled_by_settled err res : DnsResolve.settled_by err res ≠ DnsResolve.Pending.
Proof. unfold DnsResolve.settled_by. by destruct (truthy err). Qed.

Lemma deliver_cons_pending err res calls :
  DnsResolve.deliver ((err, res) :: calls) DnsResolve.Pending
  = DnsResolve.settled_by err res.
Proof.
  change (DnsResolve.deliver ((err, res) :: calls) DnsResolve.Pending)
    with (DnsResolve.deliver calls
            (DnsResolve.callback err res DnsResolve.Pending)).
  assert (DnsResolve.callback err res DnsResolve.Pending
          = DnsResolve.settled_by err res) as ->.
  { unfold DnsResolve.callback, DnsResolve.settled_by. by destruct (truthy err). }
  apply deliver_settled, settled_by_settled.
Qed.

Lemma new_promise_first_settlement run :
  DnsResolve.new_promise run = DnsResolve.first_settlement run.
Proof.
  destruct run as [during thrown after].
  unfold DnsResolve.new_promise, DnsResolve.first_settlement. simpl.
  destruct during as [|[err res] during].
  - destruct thrown as [e|]; simpl.
    + by apply deliver_settled.
    + destruct after as [|[err res] after]; [done|]. apply deliver_cons_pending.
  - rewrite deliver_cons_pending.
    pose proof (settled_by_settled err res) as Hs.
    assert (match thrown with
            | Some e => DnsResolve.promise_reject e (DnsResolve.settled_by err res)
            | None => DnsResolve.settled_by err res
            end = DnsResolve.settled_by err res) as ->.
    { destruct thrown as [e|]; [|done].
      by destruct (DnsResolve.settled_by err res). }
    by apply deliver_settled.
Qed.

(** X9. The promise of [resolve4] and of [resolve6] is decided by the first
    thing the resolver's method does when called with the host and the
    options [{ ttl: true }]: a call to the callback rejects it with [err]
    when [err] is truthy and fulfils it with [res] otherwise, an error
    thrown by the method rejects it with that error, and it stays pending
    when the method returns and never calls back; whatever the method does
    after that changes nothing. *)
Theorem resolve_settles_on_first_event :
  ∀ (host : string) (resolver : DnsResolve.Resolver)
    (method : string → JsObj → DnsResolve.MethodRun),
    (DnsResolve.resolver_resolve4 resolver = Some method →
     DnsResolve.resolve4 host resolver
     = DnsResolve.first_settlement (method host {[ "ttl" := JBool true ]}))
    ∧ (DnsResolve.resolver_resolve6 resolver = Some method →
       DnsResolve.resolve6 host resolver
       = DnsResolve.first_settlement (method host {[ "ttl" := JBool true ]})).
Proof.
  intros host resolver method.
  split; intros Hm; unfold DnsResolve.resolve4, DnsResolve.resolve6;
    rewrite Hm; apply new_promise_first_settlement.
Qed.

Example resolve4_first_answer_wins :
  DnsResolve.resolve4 "zeit.co"
    (DnsResolve.sample_resolver
       [(JNull, JStr "54.153.55.116"); (JStr "ETIMEOUT", JUndefined)] [])
  = DnsResolve.Fulfilled (JStr "54.153.55.116").
Proof. reflexivity. Qed.

Example resolve6_error_rejects :
  DnsResolve.resolve6 "zeit.co"
    (DnsResolve.sample_resolver []
       [(JStr "ENOTFOUND", JStr "ignored"); (JNull, JStr "::1")])
  = DnsResolve.Rejected (ThrowValue (JStr "ENOTFOUND")).
Proof. reflexivity. Qed.

Example resolve4_no_callback_pending :
  DnsResolve.resolve4 "zeit.co" (DnsResolve.sample_resolver [] [])
  = DnsResolve.Pending.
Proof. reflexivity. Qed.

Example resolve4_throw_after_answer :
  DnsResolve.resolve4 "zeit.co" DnsResolve.throwing_resolver
  = DnsResolve.Fulfilled (JStr "54.153.55.116").
Proof. reflexivity. Qed.

Example resolve6_throw_rejects :
  DnsResolve.resolve6 "zeit.co" DnsResolve.throwing_resolver
  = DnsResolve.Rejected (ThrowValue (JStr "EBADNAME")).
Proof. reflexivity. Qed.

Example resolve4_missing_method_rejects :
  DnsResolve.resolve4 "zeit.co"
    {| DnsResolve.resolver_resolve4 := None; DnsResolve.resolver_resolve6 := None |}
  = DnsResolve.Rejected ThrowTypeError.
Proof. reflexivity. Qed.
